(** * IPv4 CIDR exclusion: a shallow embedding of
    [Calculate_IP_ranges_after_exclusion.cpp] and the properties of its
    network predicates, exclusion kernel, driver and parser. *)

From Stdlib Require Import ZArith List String Ascii Bool Lia Sorted.
From Stdlib Require Import DecimalString.
From Stdlib Require Decimal DecimalPos.
Import ListNotations.

Local Open Scope Z_scope.
Local Open Scope bool_scope.

(** ** 32-bit unsigned arithmetic

    A [uint32_t] is a [Z] in [0, 2^32); every operation that can leave the
    range is followed by its wrap-around. *)

Module U32.

Definition modulus : Z := 2 ^ 32.
Definition all_ones : Z := 0xFFFFFFFF.

Definition wrap (x : Z) : Z := x mod modulus.

(** [x << k] on [uint32_t].  C++ defines it for [0 <= k < 32] only; outside
    that range the model takes what [Z.shiftl] gives, and no theorem below
    relies on it unless it says so. *)
Definition shl (x k : Z) : Z := wrap (Z.shiftl x k).

(** [~x] on [uint32_t]. *)
Definition not (x : Z) : Z := wrap (Z.lnot x).

Definition in_range (x : Z) : Prop := 0 <= x < modulus.

End U32.

(** ** The [IPNetwork] struct *)

Record IPNetwork : Type := mkIPNetwork { network : Z; prefix : Z }.

(** The mask expression shared by [fromCIDR], [getMask] and the split loop:
    [(p == 0) ? 0 : (0xFFFFFFFFU << (32 - p))].  It is the value of the
    source for [p] in [0, 32]; for any other [p] the shift of the source is
    undefined and the value here stands for no particular run. *)
Definition mask_of (p : Z) : Z :=
  if p =? 0 then 0 else U32.shl U32.all_ones (32 - p).

Definition getMask (n : IPNetwork) : Z := mask_of (prefix n).

Definition getBroadcast (n : IPNetwork) : Z :=
  let mask := getMask n in
  Z.lor (network n) (U32.not mask).

Definition overlaps (this other : IPNetwork) : bool :=
  let mask1 := getMask this in
  let mask2 := getMask other in
  (Z.land (network this) mask1 =? Z.land (network other) mask2)
  || (Z.land (network this) mask2 =? Z.land (network other) mask2)
  || (Z.land (network other) mask1 =? Z.land (network this) mask1).

(** [operator<] and [operator==]. *)
Definition net_ltb (a b : IPNetwork) : bool :=
  if negb (network a =? network b) then network a <? network b
  else prefix a <? prefix b.

Definition net_eqb (a b : IPNetwork) : bool :=
  (network a =? network b) && (prefix a =? prefix b).

(** ** The exclusion kernel *)

(** One pass of the body of [for (int p = prefix + 1; p <= 32; ++p)]: the
    vector after the two conditional [push_back]s. *)
Definition split_at (this exclude : IPNetwork) (p : Z)
    (result : list IPNetwork) : list IPNetwork :=
  let subMask := mask_of p in
  let subnet1 := Z.land (network this) subMask in
  let subnet2 := Z.lor subnet1 (U32.not subMask) in
  let net1 := mkIPNetwork subnet1 p in
  let net2 := mkIPNetwork subnet2 p in
  let result := if negb (overlaps net1 exclude) then result ++ [net1] else result in
  let result := if negb (overlaps net2 exclude) then result ++ [net2] else result in
  result.

(** The loop itself, from counter value [p], with the vector built so far.
    [fuel] bounds the number of passes; [split_loop_fuel] below shows that the
    amount [addressExclude] supplies is never exhausted. *)
Fixpoint split_loop (fuel : nat) (this exclude : IPNetwork) (p : Z)
    (result : list IPNetwork) : list IPNetwork :=
  match fuel with
  | O => result
  | S fuel' =>
      if p <=? 32 then
        let result := split_at this exclude p result in
        if (2 <=? List.length result)%nat then result
        else split_loop fuel' this exclude (p + 1) result
      else result
  end.

Definition addressExclude (this exclude : IPNetwork) : list IPNetwork :=
  let mask := getMask this in
  if negb (Z.land (network this) mask =? Z.land (network exclude) mask)
     && negb (Z.land (network exclude) mask =? Z.land (network this) mask)
  then [this]
  else
    let result :=
      split_loop (Z.to_nat (32 - prefix this)) this exclude (prefix this + 1) [] in
    match result with
    | [] => [this]
    | _ => result
    end.

(** ** The driver of [main] *)

(** The inner [for (const auto& y : result)] loop: one exclude applied to the
    whole working set. *)
Definition exclude_step (result : list IPNetwork) (n : IPNetwork)
    : list IPNetwork :=
  flat_map (fun y => if overlaps y n then addressExclude y n else [y]) result.

Definition working_set (start : IPNetwork) (excludes : list IPNetwork)
    : list IPNetwork :=
  fold_left exclude_step excludes [start].

(** [std::sort] with [operator<].  [operator<] is a strict total order whose
    incomparable pairs are exactly the [operator==] pairs, so the sorted
    vector does not depend on the sorting algorithm; insertion is used. *)
Fixpoint insert_sorted (x : IPNetwork) (l : list IPNetwork) : list IPNetwork :=
  match l with
  | [] => [x]
  | y :: tl => if net_ltb y x then y :: insert_sorted x tl else x :: l
  end.

Definition sort (l : list IPNetwork) : list IPNetwork :=
  fold_right insert_sorted [] l.

(** [std::unique] followed by [erase]: an element is dropped when it is
    [operator==] to the last element kept. *)
Fixpoint unique_from (last : IPNetwork) (l : list IPNetwork)
    : list IPNetwork :=
  match l with
  | [] => []
  | y :: tl => if net_eqb last y then unique_from last tl
               else y :: unique_from y tl
  end.

Definition unique (l : list IPNetwork) : list IPNetwork :=
  match l with
  | [] => []
  | x :: tl => x :: unique_from x tl
  end.

(** The vector that [main] prints. *)
Definition subtract (start : IPNetwork) (excludes : list IPNetwork)
    : list IPNetwork :=
  unique (sort (working_set start excludes)).


(** ** Text: [sscanf], [std::stoi], [parseIP], [fromCIDR], [toString] *)

Local Open Scope string_scope.

(** What a call that can throw does: [std::stoi] is the only thrower. *)
Inductive exn : Type := invalid_argument | out_of_range.

Inductive outcome (A : Type) : Type :=
| Returned (a : A)
| Thrown (e : exn).
Arguments Returned {A} a.
Arguments Thrown {A} e.

Definition bind {A B : Type} (m : outcome A) (k : A -> outcome B) : outcome B :=
  match m with
  | Returned a => k a
  | Thrown e => Thrown e
  end.

Notation "x <- m ;; k" := (bind m (fun x => k))
  (at level 61, m at next level, right associativity).

Module Scan.

Definition int_min : Z := - 2 ^ 31.
Definition int_max : Z := 2 ^ 31 - 1.

(** Conversion to [int], two's complement. *)
Definition to_int (x : Z) : Z := (x + 2 ^ 31) mod 2 ^ 32 - 2 ^ 31.

(** [isspace] in the C locale. *)
Definition isspace (c : ascii) : bool :=
  let n := nat_of_ascii c in
  (n =? 32)%nat || ((9 <=? n)%nat && (n <=? 13)%nat).

Definition digit_of (c : ascii) : option Z :=
  let n := nat_of_ascii c in
  if ((48 <=? n)%nat && (n <=? 57)%nat)%bool then Some (Z.of_nat n - 48)
  else None.

Fixpoint skip_space (s : string) : string :=
  match s with
  | String c r => if isspace c then skip_space r else s
  | EmptyString => s
  end.

(** The digits at the head of [s], accumulated onto [acc], and the rest. *)
Fixpoint digits (acc : Z) (s : string) : Z * string :=
  match s with
  | String c r =>
      match digit_of c with
      | Some d => digits (10 * acc + d) r
      | None => (acc, s)
      end
  | EmptyString => (acc, s)
  end.

Definition starts_with_digit (s : string) : bool :=
  match s with
  | String c _ => match digit_of c with Some _ => true | None => false end
  | EmptyString => false
  end.

(** A decimal integer as [strtol] reads it: white space, an optional sign,
    at least one digit.  [None] when there is no digit to convert. *)
Definition integer (s : string) : option (Z * string) :=
  let s := skip_space s in
  let '(neg, s) :=
    match s with
    | String "-" r => (true, r)
    | String "+" r => (false, r)
    | _ => (false, s)
    end in
  if starts_with_digit s then
    let '(v, rest) := digits 0 s in
    Some (if neg then - v else v, rest)
  else None.

(** The conversions [sscanf] makes for up to [k] directives [%d] separated
    by a literal dot; it stops at the first directive that fails.  A value
    that fits an [int] is stored as it is.  For a larger one C leaves the
    conversion undefined; the low 32 bits kept here are what the usual C
    library stores as long as the value fits a [long]. *)
Fixpoint dotted (k : nat) (s : string) : list Z :=
  match k with
  | O => []
  | S k' =>
      match integer s with
      | None => []
      | Some (v, rest) =>
          to_int v ::
            match k', rest with
            | S _, String "." rest' => dotted k' rest'
            | _, _ => []
            end
      end
  end.

(** [std::stoi(s)]. *)
Definition stoi (s : string) : outcome Z :=
  match integer s with
  | None => Thrown invalid_argument
  | Some (v, _) =>
      if (int_min <=? v)%Z && (v <=? int_max)%Z then Returned v
      else Thrown out_of_range
  end.

(** [s.find(c)]; [None] is [npos]. *)
Fixpoint find (c : ascii) (s : string) : option nat :=
  match s with
  | EmptyString => None
  | String d r =>
      if Ascii.eqb d c then Some O
      else match find c r with
           | Some i => Some (S i)
           | None => None
           end
  end.

(** [s.substr(pos)] for [pos <= s.size()]. *)
Definition substr_from (pos : nat) (s : string) : string :=
  substring pos (String.length s - pos) s.

(** Decimal text of an integer, as [operator<<] and [std::to_string]
    give it. *)
Definition decimal (z : Z) : string := NilZero.string_of_int (Z.to_int z).

End Scan.

Definition parseIP (ip : string) : Z :=
  let conv := Scan.dotted 4 ip in
  let parts (i : nat) : Z := nth i conv 0 in
  U32.wrap (Z.lor (Z.lor (Z.lor (Z.shiftl (parts 0%nat) 24)
                                (Z.shiftl (parts 1%nat) 16))
                         (Z.shiftl (parts 2%nat) 8))
                  (parts 3%nat)).

Definition ipToString (ip : Z) : string :=
  Scan.decimal (Z.land (Z.shiftr ip 24) 0xFF) ++ "." ++
  Scan.decimal (Z.land (Z.shiftr ip 16) 0xFF) ++ "." ++
  Scan.decimal (Z.land (Z.shiftr ip 8) 0xFF) ++ "." ++
  Scan.decimal (Z.land ip 0xFF).

Definition fromCIDR (cidr : string) : outcome IPNetwork :=
  match Scan.find "/" cidr with
  | Some slashPos =>
      let ipPart := substring 0 slashPos cidr in
      prefixLen <- Scan.stoi (Scan.substr_from (slashPos + 1) cidr) ;;
      let ip := parseIP ipPart in
      let mask := mask_of prefixLen in
      let network := Z.land ip mask in
      Returned (mkIPNetwork network prefixLen)
  | None =>
      let ip := parseIP cidr in
      Returned (mkIPNetwork ip 32)
  end.

Definition toString (n : IPNetwork) : string :=
  ipToString (network n) ++ "/" ++ Scan.decimal (prefix n).

(** The outer loop of [main], parsing each exclude as it is reached. *)
Fixpoint exclude_all (result : list IPNetwork) (exclude : list string)
    : outcome (list IPNetwork) :=
  match exclude with
  | [] => Returned result
  | x :: rest =>
      n <- fromCIDR x ;;
      exclude_all (exclude_step result n) rest
  end.

Definition endl : string := String (ascii_of_nat 10) EmptyString.

(** The printing loop: elements separated by commas. *)
Fixpoint print_from (i : nat) (result : list IPNetwork) : string :=
  match result with
  | [] => ""
  | n :: rest =>
      (if (0 <? i)%nat then "," else "") ++ toString n ++ print_from (S i) rest
  end.

(** [main] with its two literals as arguments: what is written to the
    standard output when no call throws. *)
Definition run (start : string) (exclude : list string) : outcome string :=
  s <- fromCIDR start ;;
  result <- exclude_all [s] exclude ;;
  let result := unique (sort result) in
  Returned (print_from 0 result ++ endl).

Definition main : outcome string :=
  run "0.0.0.0/0"
      ["10.0.0.0/8"; "172.16.0.0/12"; "192.168.0.0/16"; "6.6.6.6"; "8.8.8.8"].

Local Close Scope string_scope.


(** ** Specification-side notions *)

(** A network as the data model wants it: prefix in [0, 32], host bits zero. *)
Definition canonical (n : IPNetwork) : Prop :=
  0 <= prefix n <= 32 /\ Z.land (network n) (getMask n) = network n.

Definition canonicalb (n : IPNetwork) : bool :=
  (0 <=? prefix n)%Z && (prefix n <=? 32)%Z
  && (Z.land (network n) (getMask n) =? network n)%Z.

(** Containment as the data model words it: [prefix(A) <= prefix(B)] and
    [base(B) & mask(A) == base(A)]. *)
Definition contains (a b : IPNetwork) : bool :=
  (prefix a <=? prefix b)%Z
  && (Z.land (network b) (getMask a) =? network a)%Z.

(** Dotted-quad literals for the scenarios. *)
Definition quad (a b c d : Z) : Z := a * 2 ^ 24 + b * 2 ^ 16 + c * 2 ^ 8 + d.

Definition cidr (a b c d p : Z) : IPNetwork := mkIPNetwork (quad a b c d) p.

(** The two candidates of pass [p] of the split loop. *)
Definition net1_at (this : IPNetwork) (p : Z) : IPNetwork :=
  mkIPNetwork (Z.land (network this) (mask_of p)) p.

Definition net2_at (this : IPNetwork) (p : Z) : IPNetwork :=
  mkIPNetwork
    (Z.lor (Z.land (network this) (mask_of p)) (U32.not (mask_of p))) p.

(** Ascending [(network, prefix)], strictly and weakly. *)
Definition lex_lt (a b : IPNetwork) : Prop :=
  network a < network b \/ (network a = network b /\ prefix a < prefix b).

Definition lex_le (a b : IPNetwork) : Prop :=
  network a < network b \/ (network a = network b /\ prefix a <= prefix b).

(** The addresses of a network: from its address to its broadcast address. *)
Definition in_block (n : IPNetwork) (x : Z) : Prop :=
  network n <= x <= getBroadcast n.

(** A network lying in the block of [s]: a prefix at least as long, and an
    address that the mask of [s] maps to the address of [s]. *)
Definition inside (s r : IPNetwork) : Prop :=
  prefix s <= prefix r <= 32 /\ Z.land (network r) (getMask s) = network s.

(** Texts made of decimal digits only. *)
Fixpoint digit_string (s : string) : bool :=
  match s with
  | EmptyString => true
  | String c r =>
      match Scan.digit_of c with
      | Some _ => digit_string r
      | None => false
      end
  end.

(** The value [Scan.digits] reaches along a decimal numeral, from [acc]. *)
Fixpoint uint_value (acc : Z) (d : Decimal.uint) : Z :=
  match d with
  | Decimal.Nil => acc
  | Decimal.D0 d => uint_value (10 * acc + 0) d
  | Decimal.D1 d => uint_value (10 * acc + 1) d
  | Decimal.D2 d => uint_value (10 * acc + 2) d
  | Decimal.D3 d => uint_value (10 * acc + 3) d
  | Decimal.D4 d => uint_value (10 * acc + 4) d
  | Decimal.D5 d => uint_value (10 * acc + 5) d
  | Decimal.D6 d => uint_value (10 * acc + 6) d
  | Decimal.D7 d => uint_value (10 * acc + 7) d
  | Decimal.D8 d => uint_value (10 * acc + 8) d
  | Decimal.D9 d => uint_value (10 * acc + 9) d
  end.





(** ** Bit-level facts about masks *)

Section Masks.

Local Open Scope Z_scope.

Lemma mask_of_testbit (p i : Z) :
  0 <= p <= 32 -> 0 <= i ->
  Z.testbit (mask_of p) i = (32 - p <=? i) && (i <? 32).
Proof.
  intros Hp Hi. unfold mask_of.
  destruct (Z.eqb_spec p 0) as [-> | Hne].
  - rewrite Z.bits_0. destruct (Z.leb_spec (32 - 0) i), (Z.ltb_spec i 32);
      simpl; trivial; lia.
  - unfold U32.shl, U32.wrap, U32.modulus.
    destruct (Z.ltb_spec i 32) as [Hlt | Hge].
    + rewrite Z.mod_pow2_bits_low by lia.
      rewrite Z.shiftl_spec by lia.
      change U32.all_ones with (Z.ones 32).
      destruct (Z.leb_spec (32 - p) i) as [Hle | Hgt]; cbn [andb].
      * apply Z.ones_spec_low. lia.
      * apply Z.testbit_neg_r. lia.
    + rewrite Z.mod_pow2_bits_high by lia.
      now rewrite andb_false_r.
Qed.

Lemma mask_of_range (p : Z) : 0 <= p <= 32 -> 0 <= mask_of p < 2 ^ 32.
Proof.
  intros Hp. unfold mask_of.
  destruct (p =? 0); [lia |].
  unfold U32.shl, U32.wrap, U32.modulus. apply Z.mod_pos_bound. lia.
Qed.

(** A shorter mask is absorbed by a longer one. *)
Lemma mask_of_land (p q : Z) :
  0 <= p -> p <= q -> q <= 32 ->
  Z.land (mask_of p) (mask_of q) = mask_of p.
Proof.
  intros Hp Hpq Hq. apply Z.bits_inj'. intros i Hi.
  rewrite Z.land_spec, !mask_of_testbit by lia.
  destruct (Z.leb_spec (32 - p) i), (Z.leb_spec (32 - q) i),
    (Z.ltb_spec i 32); simpl; trivial; lia.
Qed.

Lemma not_land_self (m : Z) : Z.land (U32.not m) m = 0.
Proof.
  apply Z.bits_inj'. intros i Hi.
  rewrite Z.land_spec, Z.bits_0.
  unfold U32.not, U32.wrap, U32.modulus.
  destruct (Z.ltb_spec i 32) as [Hlt | Hge].
  - rewrite Z.mod_pow2_bits_low by lia.
    rewrite Z.lnot_spec by lia. apply andb_negb_l.
  - rewrite Z.mod_pow2_bits_high by lia. reflexivity.
Qed.

(** Setting host bits does not change the masked address. *)
Lemma land_lor_not (x m : Z) :
  Z.land (Z.lor x (U32.not m)) m = Z.land x m.
Proof.
  rewrite Z.land_lor_distr_l, not_land_self. apply Z.lor_0_r.
Qed.

Lemma canonical_longer_mask (n : IPNetwork) (q : Z) :
  canonical n -> prefix n <= q <= 32 ->
  Z.land (network n) (mask_of q) = network n.
Proof.
  intros [Hp Hc] Hq. unfold getMask in Hc.
  rewrite <- Hc at 1.
  rewrite <- Z.land_assoc, mask_of_land by lia.
  exact Hc.
Qed.

Lemma canonicalb_spec (n : IPNetwork) : canonicalb n = true <-> canonical n.
Proof.
  unfold canonicalb, canonical.
  rewrite !andb_true_iff, !Z.leb_le, Z.eqb_eq. tauto.
Qed.

End Masks.

(** ** The overlap predicate *)

Section Overlaps.

Local Open Scope Z_scope.

Lemma overlaps_sym (a b : IPNetwork) : overlaps a b = overlaps b a.
Proof.
  unfold overlaps; cbv zeta.
  rewrite (Z.eqb_sym (Z.land (network a) (getMask a))).
  rewrite (Z.eqb_sym (Z.land (network a) (getMask b))).
  rewrite (Z.eqb_sym (Z.land (network b) (getMask a))).
  rewrite <- !orb_assoc. f_equal. apply orb_comm.
Qed.

(** Between canonical networks the three comparisons of [overlaps] amount
    to the single comparison under the shorter mask. *)
Lemma overlaps_canonical_le (a b : IPNetwork) :
  canonical a -> canonical b -> prefix a <= prefix b ->
  overlaps a b = (Z.land (network b) (getMask a) =? network a).
Proof.
  intros Ha Hb Hle.
  assert (Hab : Z.land (network a) (getMask b) = network a)
    by (apply canonical_longer_mask; [assumption | destruct Hb; lia]).
  destruct Ha as [Hpa Hca], Hb as [Hpb Hcb].
  unfold overlaps; cbv zeta. rewrite Hca, Hcb, Hab.
  destruct (Z.eqb_spec (network a) (network b)) as [Heq | Hne]; simpl.
  - symmetry. apply Z.eqb_eq. rewrite <- Heq. exact Hca.
  - reflexivity.
Qed.

Lemma contains_swap_eq (a b : IPNetwork) :
  canonical a -> canonical b -> prefix a <= prefix b ->
  contains b a = true -> contains a b = true.
Proof.
  intros Ha Hb Hle Hba. unfold contains in *.
  apply andb_true_iff in Hba as [Hp Hn].
  apply Z.leb_le in Hp. apply Z.eqb_eq in Hn.
  assert (prefix a = prefix b) as Hpe by lia.
  apply andb_true_iff; split; [apply Z.leb_le; lia |].
  apply Z.eqb_eq. unfold getMask in *. rewrite Hpe in *.
  destruct Ha as [_ Hca], Hb as [_ Hcb]. unfold getMask in *.
  rewrite Hpe in Hca. congruence.
Qed.

Lemma overlaps_contains (a b : IPNetwork) :
  canonical a -> canonical b ->
  overlaps a b = contains a b || contains b a.
Proof.
  intros Ha Hb.
  destruct (Z.le_ge_cases (prefix a) (prefix b)) as [Hle | Hge].
  - rewrite overlaps_canonical_le by assumption.
    destruct (contains b a) eqn:Hba.
    + rewrite (contains_swap_eq a b Ha Hb Hle Hba).
      apply contains_swap_eq in Hba; trivial.
      unfold contains in Hba. apply andb_true_iff in Hba. tauto.
    + rewrite orb_false_r. unfold contains.
      apply Z.leb_le in Hle. now rewrite Hle.
  - rewrite overlaps_sym, overlaps_canonical_le by (assumption || lia).
    destruct (contains a b) eqn:Hab.
    + apply contains_swap_eq in Hab; trivial; try lia.
      unfold contains in Hab. apply andb_true_iff in Hab. tauto.
    + simpl. unfold contains.
      assert ((prefix b <=? prefix a) = true) as -> by (apply Z.leb_le; lia).
      reflexivity.
Qed.

End Overlaps.

(** ** The split loop *)

Section Kernel.

Local Open Scope Z_scope.

Variables this exclude : IPNetwork.

(** Both candidates have the masked address of [this] under [mask_of p]. *)
Lemma net1_at_masked (p : Z) :
  Z.land (network (net1_at this p)) (getMask (net1_at this p))
  = Z.land (network this) (mask_of p).
Proof.
  unfold net1_at, getMask; cbn [network prefix].
  rewrite <- Z.land_assoc. now rewrite Z.land_diag.
Qed.

Lemma net2_at_masked (p : Z) :
  Z.land (network (net2_at this p)) (getMask (net2_at this p))
  = Z.land (network this) (mask_of p).
Proof.
  unfold net2_at, getMask; cbn [network prefix].
  rewrite land_lor_not, <- Z.land_assoc. now rewrite Z.land_diag.
Qed.

(** When [exclude] agrees with [this] under [mask_of p], pass [p] pushes
    nothing: the third comparison of [overlaps] succeeds for both. *)
Lemma split_at_agree (p : Z) (result : list IPNetwork) :
  Z.land (network exclude) (mask_of p) = Z.land (network this) (mask_of p) ->
  split_at this exclude p result = result.
Proof.
  intros Hagree. unfold split_at; cbv zeta.
  fold (net1_at this p). fold (net2_at this p).
  assert (H1 : overlaps (net1_at this p) exclude = true).
  { unfold overlaps; cbv zeta. rewrite net1_at_masked.
    replace (getMask (net1_at this p)) with (mask_of p) by reflexivity.
    rewrite Hagree, Z.eqb_refl. now rewrite !orb_true_r. }
  assert (H2 : overlaps (net2_at this p) exclude = true).
  { unfold overlaps; cbv zeta. rewrite net2_at_masked.
    replace (getMask (net2_at this p)) with (mask_of p) by reflexivity.
    rewrite Hagree, Z.eqb_refl. now rewrite !orb_true_r. }
  now rewrite H1, H2.
Qed.

Lemma split_loop_agree (fuel : nat) (p : Z) :
  (forall q, p <= q <= 32 ->
     Z.land (network exclude) (mask_of q) = Z.land (network this) (mask_of q)) ->
  split_loop fuel this exclude p [] = [].
Proof.
  revert p. induction fuel as [| fuel IH]; intros p Hagree; [reflexivity |].
  cbn [split_loop]. destruct (Z.leb_spec p 32) as [Hle | Hgt]; [| reflexivity].
  rewrite split_at_agree by (apply Hagree; lia).
  cbn [List.length Nat.leb]. apply IH. intros q Hq. apply Hagree. lia.
Qed.

(** The loop never needs more passes than [33 - p]. *)
Lemma split_loop_fuel (fuel : nat) (p : Z) (result : list IPNetwork) :
  (Z.to_nat (33 - p) <= fuel)%nat ->
  split_loop fuel this exclude p result
  = split_loop (Z.to_nat (33 - p)) this exclude p result.
Proof.
  revert p result. induction fuel as [| fuel IH]; intros p result Hfuel.
  - now replace (Z.to_nat (33 - p)) with O by lia.
  - destruct (Z.leb_spec p 32) as [Hle | Hgt].
    + replace (Z.to_nat (33 - p)) with (S (Z.to_nat (33 - (p + 1)))) by lia.
      cbn [split_loop]. apply Z.leb_le in Hle. rewrite Hle.
      destruct (2 <=? List.length (split_at this exclude p result))%nat;
        [reflexivity |].
      apply IH. lia.
    + replace (Z.to_nat (33 - p)) with O by lia.
      cbn [split_loop]. apply Z.leb_gt in Hgt. now rewrite Hgt.
Qed.

Hypothesis this_canonical : canonical this.
Hypothesis exclude_canonical : canonical exclude.
Hypothesis prefix_le : prefix this <= prefix exclude.

(** Below the prefix of [this] the first candidate keeps its address. *)
Lemma net1_at_canonical (p : Z) :
  prefix this <= p <= 32 -> net1_at this p = mkIPNetwork (network this) p.
Proof.
  intros Hp. unfold net1_at. now rewrite canonical_longer_mask.
Qed.

(** For a canonical pair with [prefix this <= prefix exclude], a pass
    pushes both candidates or none. *)
Lemma split_at_canonical (p : Z) (result : list IPNetwork) :
  prefix this < p <= 32 ->
  split_at this exclude p result =
    if Z.land (network exclude) (mask_of p) =? network this then result
    else result ++ [net1_at this p; net2_at this p].
Proof.
  intros Hp.
  assert (Hthis : Z.land (network this) (mask_of p) = network this)
    by (apply canonical_longer_mask; [assumption | lia]).
  destruct (Z.eqb_spec (Z.land (network exclude) (mask_of p)) (network this))
    as [Heq | Hne].
  - apply split_at_agree. congruence.
  - assert (Hwide : Z.land (network this) (getMask exclude) = network this)
      by (apply canonical_longer_mask;
          [assumption | destruct exclude_canonical; lia]).
    destruct exclude_canonical as [Hpe Hce].
    assert (Hdiff : network this <> network exclude).
    { intros Heq. apply Hne. rewrite <- Heq. exact Hthis. }
    unfold split_at; cbv zeta. fold (net1_at this p). fold (net2_at this p).
    assert (H1 : overlaps (net1_at this p) exclude = false).
    { unfold overlaps; cbv zeta. rewrite net1_at_masked.
      replace (getMask (net1_at this p)) with (mask_of p) by reflexivity.
      rewrite net1_at_canonical by lia. cbn [network].
      rewrite Hthis, Hce, Hwide.
      apply Z.eqb_neq in Hdiff, Hne. now rewrite Hdiff, Hne. }
    assert (H2 : overlaps (net2_at this p) exclude = false).
    { unfold overlaps; cbv zeta. rewrite net2_at_masked.
      replace (getMask (net2_at this p)) with (mask_of p) by reflexivity.
      rewrite Hthis, Hce.
      apply Z.eqb_neq in Hdiff as Hd. rewrite Hd.
      apply Z.eqb_neq in Hne as Hn. rewrite Hn.
      rewrite !orb_false_r; cbn [orb].
      apply Z.eqb_neq. intros Heq. apply Hne.
      rewrite <- Heq. unfold net2_at; cbn [network]. rewrite Hthis.
      rewrite <- Z.land_assoc, (Z.land_comm (getMask exclude)), Z.land_assoc.
      rewrite land_lor_not, Hthis. exact Hwide. }
    rewrite H1, H2; cbn [negb]. now rewrite <- app_assoc.
Qed.

(** Hence the loop ends with nothing or with the pair of one pass. *)
Lemma split_loop_canonical (fuel : nat) (p : Z) :
  prefix this < p ->
  split_loop fuel this exclude p [] = [] \/
  exists q, p <= q <= 32 /\
    split_loop fuel this exclude p [] = [net1_at this q; net2_at this q].
Proof.
  revert p. induction fuel as [| fuel IH]; intros p Hp; [now left |].
  cbn [split_loop]. destruct (Z.leb_spec p 32) as [Hle | Hgt]; [| now left].
  rewrite split_at_canonical by lia.
  destruct (Z.land (network exclude) (mask_of p) =? network this).
  - cbn [List.length Nat.leb].
    destruct (IH (p + 1)) as [Hnil | (q & Hq & Hpair)]; [lia | now left |].
    right. exists q. split; [lia | exact Hpair].
  - right. exists p. split; [lia | reflexivity].
Qed.

End Kernel.

(** ** The exclusion kernel *)

Section AddressExclude.

Local Open Scope Z_scope.

(** Excluding a network from itself gives the network back: every pass
    finds both candidates overlapping, and the final [result.empty()] test
    pushes [*this]. *)
Lemma addressExclude_self (c : IPNetwork) : addressExclude c c = [c].
Proof.
  unfold addressExclude; cbv zeta.
  rewrite Z.eqb_refl; cbn [negb andb].
  now rewrite split_loop_agree.
Qed.

(** The shape of every result on a canonical pair whose second prefix is
    not the shorter: the receiver itself, or the two candidates of one
    pass. *)
Lemma addressExclude_shape (c e : IPNetwork) :
  canonical c -> canonical e -> prefix c <= prefix e ->
  addressExclude c e = [c] \/
  exists q, prefix c < q <= 32 /\
    addressExclude c e = [net1_at c q; net2_at c q].
Proof.
  intros Hc He Hle. unfold addressExclude; cbv zeta.
  destruct (negb _ && negb _); [now left |].
  destruct (split_loop_canonical c e Hc He Hle
              (Z.to_nat (32 - prefix c)) (prefix c + 1))
    as [Hnil | (q & Hq & Hpair)]; [lia | |].
  - rewrite Hnil. now left.
  - rewrite Hpair. right. exists q. split; [lia | reflexivity].
Qed.

Lemma addressExclude_length (c e : IPNetwork) :
  canonical c -> canonical e -> prefix c <= prefix e ->
  (1 <= List.length (addressExclude c e) <= 2)%nat.
Proof.
  intros Hc He Hle.
  destruct (addressExclude_shape c e Hc He Hle) as [-> | (q & _ & ->)];
    cbn [List.length]; lia.
Qed.

(** The fuel [addressExclude] passes to the loop is enough: more of it
    changes nothing. *)
Lemma addressExclude_fuel (c e : IPNetwork) (extra : nat) :
  split_loop (Z.to_nat (32 - prefix c) + extra) c e (prefix c + 1) []
  = split_loop (Z.to_nat (32 - prefix c)) c e (prefix c + 1) [].
Proof.
  rewrite split_loop_fuel by lia.
  now replace (33 - (prefix c + 1)) with (32 - prefix c) by lia.
Qed.

(** The second candidate of a pass below 32 has host bits set: its lowest
    bit is one while its mask clears that bit. *)
Lemma net2_at_host_bits (c : IPNetwork) (q : Z) :
  canonical c -> prefix c < q < 32 ->
  Z.land (network (net2_at c q)) (getMask (net2_at c q))
  <> network (net2_at c q).
Proof.
  intros [Hp _] Hq Heq. rewrite net2_at_masked in Heq.
  unfold net2_at in Heq; cbn [network] in Heq.
  assert (Hmask : Z.testbit (mask_of q) 0 = false).
  { rewrite mask_of_testbit by lia.
    destruct (Z.leb_spec (32 - q) 0); [lia | reflexivity]. }
  assert (Hlow : Z.testbit (Z.land (network c) (mask_of q)) 0 = false)
    by (rewrite Z.land_spec, Hmask; apply andb_false_r).
  rewrite Heq, Z.lor_spec in Hlow.
  apply orb_false_iff in Hlow as [_ Hnot].
  unfold U32.not, U32.wrap, U32.modulus in Hnot.
  rewrite Z.mod_pow2_bits_low, Z.lnot_spec, Hmask in Hnot by lia.
  discriminate.
Qed.

(** The guard at the head of [addressExclude]: when the exclude differs from
    the receiver under the mask of the receiver, the receiver is returned
    before the loop is entered. *)
Lemma addressExclude_guard (c e : IPNetwork) :
  Z.land (network c) (getMask c) <> Z.land (network e) (getMask c) ->
  addressExclude c e = [c].
Proof.
  intros Hne. unfold addressExclude; cbv zeta.
  rewrite (Z.eqb_sym (Z.land (network e) (getMask c))).
  apply Z.eqb_neq in Hne. now rewrite Hne.
Qed.

(** A receiver lying inside the excluded network comes back whole. *)
Lemma addressExclude_container (x y : IPNetwork) :
  canonical x -> canonical y -> contains x y = true ->
  addressExclude y x = [y].
Proof.
  intros Hx Hy Hxy. unfold contains in Hxy.
  apply andb_true_iff in Hxy as [Hp Hn]. apply Z.leb_le in Hp.
  unfold addressExclude; cbv zeta.
  destruct (Z.eqb_spec (Z.land (network y) (getMask y))
                       (Z.land (network x) (getMask y))) as [Heq | Hne];
    cbn [negb andb].
  - assert (Hsame : network x = network y).
    { destruct Hy as [Hpy Hcy]. rewrite Hcy in Heq. rewrite Heq.
      symmetry. apply canonical_longer_mask; [assumption | lia]. }
    rewrite split_loop_agree; [reflexivity |].
    intros q _. now rewrite Hsame.
  - rewrite (Z.eqb_sym (Z.land (network x) (getMask y))).
    apply Z.eqb_neq in Hne. now rewrite Hne.
Qed.

End AddressExclude.

(** ** Sorting and deduplication *)

Section Canonicalization.

Local Open Scope Z_scope.

Lemma net_ltb_lex_lt (a b : IPNetwork) : net_ltb a b = true <-> lex_lt a b.
Proof.
  unfold net_ltb, lex_lt.
  destruct (Z.eqb_spec (network a) (network b)); cbn [negb];
    rewrite Z.ltb_lt; lia.
Qed.

Lemma net_ltb_false_lex_le (a b : IPNetwork) :
  net_ltb a b = false <-> lex_le b a.
Proof.
  unfold net_ltb, lex_le.
  destruct (Z.eqb_spec (network a) (network b)); cbn [negb];
    rewrite Z.ltb_ge; lia.
Qed.

Lemma net_eqb_eq (a b : IPNetwork) : net_eqb a b = true <-> a = b.
Proof.
  unfold net_eqb. rewrite andb_true_iff, !Z.eqb_eq.
  destruct a, b; cbn [network prefix].
  split; [intros [-> ->]; reflexivity | intros [= -> ->]; now split].
Qed.

Lemma lex_le_trans (a b c : IPNetwork) : lex_le a b -> lex_le b c -> lex_le a c.
Proof. unfold lex_le. lia. Qed.

Lemma lex_lt_le (a b : IPNetwork) : lex_lt a b -> lex_le a b.
Proof. unfold lex_lt, lex_le. lia. Qed.

Lemma lex_lt_irrefl (a : IPNetwork) : ~ lex_lt a a.
Proof. unfold lex_lt. lia. Qed.

Lemma insert_sorted_Forall (P : IPNetwork -> Prop) (x : IPNetwork)
    (l : list IPNetwork) :
  P x -> Forall P l -> Forall P (insert_sorted x l).
Proof.
  intros Hx Hl. induction Hl as [| y tl Hy Htl IH]; cbn [insert_sorted].
  - now constructor.
  - destruct (net_ltb y x); constructor; auto.
Qed.

Lemma insert_sorted_sorted (x : IPNetwork) (l : list IPNetwork) :
  StronglySorted lex_le l -> StronglySorted lex_le (insert_sorted x l).
Proof.
  induction 1 as [| y tl Hsorted IH Hall]; cbn [insert_sorted].
  - repeat constructor.
  - destruct (net_ltb y x) eqn:Hyx.
    + constructor; [exact IH |].
      apply insert_sorted_Forall; [| exact Hall].
      apply lex_lt_le. now apply net_ltb_lex_lt.
    + apply net_ltb_false_lex_le in Hyx.
      constructor; [now constructor |].
      constructor; [exact Hyx |].
      eapply Forall_impl; [| exact Hall].
      intros z Hz. eapply lex_le_trans; eassumption.
Qed.

Lemma sort_sorted (l : list IPNetwork) : StronglySorted lex_le (sort l).
Proof.
  induction l as [| x l IH]; cbn [sort fold_right].
  - constructor.
  - now apply insert_sorted_sorted.
Qed.

(** On a weakly sorted tail, [unique_from] leaves a strictly sorted list
    above the element it was started from. *)
Lemma unique_from_sorted (last : IPNetwork) (l : list IPNetwork) :
  StronglySorted lex_le l -> Forall (lex_le last) l ->
  StronglySorted lex_lt (unique_from last l)
  /\ Forall (lex_lt last) (unique_from last l).
Proof.
  intros Hsorted. revert last.
  induction Hsorted as [| y tl Hsorted IH Hall]; intros last Hlast;
    cbn [unique_from].
  - split; constructor.
  - inversion Hlast as [| ? ? Hly Hltl]; subst.
    destruct (net_eqb last y) eqn:Heq.
    + apply IH. exact Hltl.
    + destruct (IH y Hall) as [IHs IHf].
      assert (Hlt : lex_lt last y).
      { assert (last <> y) as Hne
          by (intros E; apply net_eqb_eq in E; congruence).
        unfold lex_le in Hly. unfold lex_lt.
        destruct last, y; cbn [network prefix] in *.
        destruct (Z.eq_dec prefix0 prefix1); [| lia].
        destruct (Z.eq_dec network0 network1); [| lia].
        subst. now contradiction Hne. }
      split; constructor; trivial.
      eapply Forall_impl; [| exact IHf].
      intros z Hz. unfold lex_lt in *. lia.
Qed.

Lemma unique_sorted (l : list IPNetwork) :
  StronglySorted lex_le l -> StronglySorted lex_lt (unique l).
Proof.
  intros Hsorted. destruct Hsorted as [| x tl Hsorted Hall]; cbn [unique].
  - constructor.
  - destruct (unique_from_sorted x tl Hsorted Hall). now constructor.
Qed.

Lemma strictly_sorted_NoDup (l : list IPNetwork) :
  StronglySorted lex_lt l -> NoDup l.
Proof.
  induction 1 as [| x tl Hsorted IH Hall]; constructor; [| exact IH].
  intros Hin. rewrite Forall_forall in Hall.
  exact (lex_lt_irrefl x (Hall x Hin)).
Qed.

End Canonicalization.

(** ** The driver *)

Section Driver.

Local Open Scope Z_scope.

Lemma overlaps_refl (c : IPNetwork) : overlaps c c = true.
Proof. unfold overlaps; cbv zeta. now rewrite Z.eqb_refl. Qed.

Lemma exclude_step_single (y n : IPNetwork) :
  exclude_step [y] n = if overlaps y n then addressExclude y n else [y].
Proof. unfold exclude_step; cbn [flat_map]. apply app_nil_r. Qed.

Lemma subtract_single (s x : IPNetwork) :
  subtract s [x]
  = unique (sort (if overlaps s x then addressExclude s x else [s])).
Proof.
  unfold subtract, working_set; cbn [fold_left].
  now rewrite exclude_step_single.
Qed.

(** [main] on literals that all parse prints the sorted, deduplicated
    working set. *)
Lemma exclude_all_parsed (exclude : list string) (ns : list IPNetwork) :
  Forall2 (fun x n => fromCIDR x = Returned n) exclude ns ->
  forall result,
    exclude_all result exclude = Returned (fold_left exclude_step ns result).
Proof.
  induction 1 as [| x n exclude ns Hx _ IH]; intros result;
    cbn [exclude_all fold_left]; [reflexivity |].
  rewrite Hx; cbn [bind]. apply IH.
Qed.

Lemma run_parsed (start : string) (exclude : list string)
    (s : IPNetwork) (ns : list IPNetwork) :
  fromCIDR start = Returned s ->
  Forall2 (fun x n => fromCIDR x = Returned n) exclude ns ->
  run start exclude = Returned (print_from 0 (subtract s ns) ++ endl)%string.
Proof.
  intros Hs Hns. unfold run. rewrite Hs; cbn [bind].
  now rewrite (exclude_all_parsed exclude ns Hns).
Qed.

End Driver.

(** ** Parsing *)

Section Parsing.

Local Open Scope Z_scope.

Lemma parseIP_range (text : string) : 0 <= parseIP text < 2 ^ 32.
Proof. unfold parseIP, U32.wrap, U32.modulus. apply Z.mod_pos_bound. lia. Qed.

Lemma land_all_ones (x : Z) : 0 <= x < 2 ^ 32 -> Z.land x (mask_of 32) = x.
Proof.
  intros Hx. change (mask_of 32) with (Z.ones 32).
  rewrite Z.land_ones by lia. apply Z.mod_small. exact Hx.
Qed.

(** Whatever [fromCIDR] returns has its host bits cleared under its own
    mask. *)
Lemma fromCIDR_host_bits (text : string) (n : IPNetwork) :
  fromCIDR text = Returned n -> Z.land (network n) (getMask n) = network n.
Proof.
  unfold fromCIDR. destruct (Scan.find "/" text) as [pos |].
  - destruct (Scan.stoi _) as [p | e]; cbn [bind]; [| discriminate].
    intros [= <-]. unfold getMask; cbn [network prefix].
    rewrite <- Z.land_assoc. now rewrite Z.land_diag.
  - intros [= <-]. unfold getMask; cbn [network prefix].
    apply land_all_ones, parseIP_range.
Qed.

Lemma stoi_throws (text : string) (e : exn) :
  Scan.stoi text = Thrown e ->
  (e = invalid_argument /\ Scan.integer text = None) \/
  (e = out_of_range /\
   exists v rest, Scan.integer text = Some (v, rest)
                  /\ ~ Scan.int_min <= v <= Scan.int_max).
Proof.
  unfold Scan.stoi. destruct (Scan.integer text) as [[v rest] |].
  - destruct (Z.leb_spec Scan.int_min v), (Z.leb_spec v Scan.int_max);
      cbn [andb]; intros [= <-]; right; (split; [reflexivity |]);
      exists v, rest; (split; [reflexivity | lia]).
  - intros [= <-]. now left.
Qed.

End Parsing.

(** ** The program on its own literals *)

Example main_output :
  main = Returned
    ("0.0.0.0/6,3.255.255.255/6,7.0.0.0/8,7.255.255.255/8" ++ endl)%string.
Proof. vm_compute. reflexivity. Qed.

Example scenario_S5_output :
  run "10.0.0.0/8" ["192.168.0.0/16"%string]
  = Returned ("10.0.0.0/8" ++ endl)%string.
Proof. vm_compute. reflexivity. Qed.

Example scenario_S6_output :
  run "10.0.0.0/8" ["10.0.0.0/8"; "10.1.0.0/16"]%string
  = Returned ("10.0.0.0/16,10.0.255.255/16" ++ endl)%string.
Proof. vm_compute. reflexivity. Qed.

(** ** Properties of the specification *)

Section Claims.

Local Open Scope Z_scope.

(** C1.  Scenario S2 on the code: start [10.0.0.0/24] with the single exclude
    [10.0.0.128/25] does not give the one-element list [10.0.0.0/25]; the
    output has a second element, [10.0.0.127/25], the second candidate of
    the split pass, and that is what [main] would print. *)
Theorem scenario_S2_output :
  fromCIDR "10.0.0.0/24" = Returned (cidr 10 0 0 0 24) /\
  fromCIDR "10.0.0.128/25" = Returned (cidr 10 0 0 128 25) /\
  subtract (cidr 10 0 0 0 24) [cidr 10 0 0 128 25]
    = [cidr 10 0 0 0 25; cidr 10 0 0 127 25] /\
  run "10.0.0.0/24" ["10.0.0.128/25"%string]
    = Returned ("10.0.0.0/25,10.0.0.127/25" ++ endl)%string.
Proof. repeat split; vm_compute; reflexivity. Qed.

(** C2.  The kernel on a strict sub-network: for [C = 192.0.2.0/24] and
    [E = 192.0.2.5/32], both canonical with [C] containing [E], the prefixes
    differ by 8 while [addressExclude] returns 2 networks, the pair of the
    first pass whose candidates miss [E]. *)
Theorem kernel_size_S4 :
  let c := cidr 192 0 2 0 24 in
  let e := cidr 192 0 2 5 32 in
  canonical c /\ canonical e /\ contains c e = true /\
  prefix e - prefix c = 8 /\
  addressExclude c e = [cidr 192 0 2 0 30; cidr 192 0 2 3 30] /\
  List.length (addressExclude c e) = 2%nat.
Proof.
  cbv zeta.
  split; [split; [cbn; lia | reflexivity] |].
  split; [split; [cbn; lia | reflexivity] |].
  repeat split; vm_compute; reflexivity.
Qed.

(** C3.  Self-exclusion on the code: for every network [c],
    [addressExclude c c] is [[c]], not the empty list, so the pipeline with
    start [c] and excludes [[c]] gives [[c]]; scenario S3 prints
    [10.0.0.0/24], not an empty line.  The proof does not look at the value
    of any mask. *)
Theorem self_exclusion_keeps_network (c : IPNetwork) :
  addressExclude c c = [c] /\
  subtract c [c] = [c] /\
  run "10.0.0.0/24" ["10.0.0.0/24"%string]
    = Returned ("10.0.0.0/24" ++ endl)%string.
Proof.
  split; [apply addressExclude_self |]. split.
  - rewrite subtract_single, overlaps_refl, addressExclude_self. reflexivity.
  - vm_compute. reflexivity.
Qed.

(** C4.  Host bits of kernel results: [addressExclude] on the canonical pair
    [10.0.0.0/24], [10.0.0.128/25] returns [10.0.0.127/25], whose address is
    not preserved by its own mask; the value reaches the final output. *)
Theorem split_candidate_host_bits :
  let c := cidr 10 0 0 0 24 in
  let e := cidr 10 0 0 128 25 in
  let n := cidr 10 0 0 127 25 in
  canonical c /\ canonical e /\
  In n (addressExclude c e) /\
  In n (subtract c [e]) /\
  Z.land (network n) (getMask n) = quad 10 0 0 0 /\
  Z.land (network n) (getMask n) <> network n.
Proof.
  cbv zeta.
  split; [split; [cbn; lia | reflexivity] |].
  split; [split; [cbn; lia | reflexivity] |].
  split; [vm_compute; right; now left |].
  split; [vm_compute; right; now left |].
  split; [reflexivity | vm_compute; discriminate].
Qed.

(** C5 (as stated, refuted).  [10.0.0.0/8] contains [10.1.0.0/16] and
    differs from it, yet the exclude step leaves the member in the working
    set; scenario S6 has a non-empty output. *)
Lemma contained_member_not_removed :
  let x := cidr 10 0 0 0 8 in
  let y := cidr 10 1 0 0 16 in
  canonical x /\ canonical y /\ contains x y = true /\ x <> y /\
  exclude_step [y] x <> [] /\
  subtract (cidr 10 0 0 0 8) [cidr 10 0 0 0 8; cidr 10 1 0 0 16] <> [].
Proof.
  cbv zeta.
  split; [split; [cbn; lia | reflexivity] |].
  split; [split; [cbn; lia | reflexivity] |].
  split; [reflexivity |].
  split; [discriminate |].
  split; vm_compute; discriminate.
Qed.

(** C5 (amended).  A working-set member [y], canonical or not, that a
    canonical exclude [x] contains and whose address under its own mask is
    not the address of [x], is kept unchanged by the exclude step: the guard
    at the head of [addressExclude] returns it before the split loop is
    entered, so it contributes exactly itself to the new working set.
    Members that start at the address of [x] are not covered. *)
Theorem contained_member_kept (x y : IPNetwork) :
  canonical x -> prefix y <= 32 -> contains x y = true ->
  Z.land (network y) (getMask y) <> network x ->
  Z.land (network y) (getMask y) <> Z.land (network x) (getMask y) /\
  addressExclude y x = [y] /\
  exclude_step [y] x = [y].
Proof.
  intros Hx Hy Hxy Hbase. unfold contains in Hxy.
  apply andb_true_iff in Hxy as [Hp _]. apply Z.leb_le in Hp.
  assert (Hwide : Z.land (network x) (getMask y) = network x)
    by (apply canonical_longer_mask; [assumption | lia]).
  assert (Hguard : Z.land (network y) (getMask y)
                   <> Z.land (network x) (getMask y)) by congruence.
  split; [exact Hguard |].
  split; [now apply addressExclude_guard |].
  rewrite exclude_step_single.
  destruct (overlaps y x); [now apply addressExclude_guard | reflexivity].
Qed.

(** The amended C5 at [x = 10.0.0.0/8], [y = 10.1.0.0/16]. *)
Lemma contained_member_kept_witness :
  Z.land (network (cidr 10 1 0 0 16)) (getMask (cidr 10 1 0 0 16))
  <> Z.land (network (cidr 10 0 0 0 8)) (getMask (cidr 10 1 0 0 16)) /\
  addressExclude (cidr 10 1 0 0 16) (cidr 10 0 0 0 8) = [cidr 10 1 0 0 16] /\
  exclude_step [cidr 10 1 0 0 16] (cidr 10 0 0 0 8) = [cidr 10 1 0 0 16].
Proof.
  apply (contained_member_kept (cidr 10 0 0 0 8) (cidr 10 1 0 0 16)).
  - split; [cbn; lia | reflexivity].
  - cbn. lia.
  - reflexivity.
  - vm_compute. discriminate.
Defined.

(** C6.  On canonical networks [overlaps] is containment in one of the two
    directions, with containment as the data model defines it; and two
    overlapping networks need not have the same address. *)
Theorem overlaps_iff_contains (a b : IPNetwork) :
  canonical a -> canonical b ->
  (overlaps a b = true <-> contains a b = true \/ contains b a = true) /\
  (exists a' b', canonical a' /\ canonical b' /\ overlaps a' b' = true
                 /\ network a' <> network b').
Proof.
  intros Ha Hb. split.
  - rewrite overlaps_contains by assumption. apply orb_true_iff.
  - exists (cidr 10 0 0 0 8), (cidr 10 1 0 0 16).
    split; [split; [cbn; lia | reflexivity] |].
    split; [split; [cbn; lia | reflexivity] |].
    split; [reflexivity | vm_compute; discriminate].
Qed.

(** C6 at [10.0.0.0/8] and [10.1.0.0/16]. *)
Lemma overlaps_iff_contains_witness :
  (overlaps (cidr 10 0 0 0 8) (cidr 10 1 0 0 16) = true <->
   contains (cidr 10 0 0 0 8) (cidr 10 1 0 0 16) = true \/
   contains (cidr 10 1 0 0 16) (cidr 10 0 0 0 8) = true) /\
  (exists a' b', canonical a' /\ canonical b' /\ overlaps a' b' = true
                 /\ network a' <> network b').
Proof.
  apply (overlaps_iff_contains (cidr 10 0 0 0 8) (cidr 10 1 0 0 16)).
  - split; [cbn; lia | reflexivity].
  - split; [cbn; lia | reflexivity].
Defined.

(** C7.  An exclude that does not overlap the start contributes nothing: the
    pipeline output for start [s] and excludes [[x]] is [[s]]. *)
Theorem disjoint_exclude_keeps_start (s x : IPNetwork) :
  overlaps s x = false -> subtract s [x] = [s].
Proof. intros Hsx. rewrite subtract_single, Hsx. reflexivity. Qed.

(** C7 at scenario S5: start [10.0.0.0/8], exclude [192.168.0.0/16]. *)
Lemma disjoint_exclude_keeps_start_witness :
  overlaps (cidr 10 0 0 0 8) (cidr 192 168 0 0 16) = false /\
  subtract (cidr 10 0 0 0 8) [cidr 192 168 0 0 16] = [cidr 10 0 0 0 8].
Proof.
  split; [reflexivity |].
  apply (disjoint_exclude_keeps_start (cidr 10 0 0 0 8) (cidr 192 168 0 0 16)).
  reflexivity.
Defined.

(** C8.  For every start and every list of excludes the output is strictly
    ascending in [(network, prefix)], the order of [operator<], and so holds
    no pair twice. *)
Theorem output_sorted_nodup (start : IPNetwork) (excludes : list IPNetwork) :
  StronglySorted lex_lt (subtract start excludes) /\
  StronglySorted (fun a b => net_ltb a b = true) (subtract start excludes) /\
  NoDup (subtract start excludes).
Proof.
  assert (Hs : StronglySorted lex_lt (subtract start excludes))
    by apply unique_sorted, sort_sorted.
  split; [exact Hs |]. split; [| now apply strictly_sorted_NoDup].
  induction Hs as [| n l _ IH Hall]; constructor; [exact IH |].
  eapply Forall_impl; [| exact Hall].
  intros m. apply net_ltb_lex_lt.
Qed.


(** C10.  [overlaps] is symmetric on all values, canonical or not. *)
Theorem overlaps_symmetric (a b : IPNetwork) : overlaps a b = overlaps b a.
Proof. apply overlaps_sym. Qed.

End Claims.

(** ** Masks, broadcast addresses and address ranges *)

Section Ranges.

Local Open Scope Z_scope.

Lemma pow2_block (p : Z) : 0 <= p <= 32 -> 0 < 2 ^ (32 - p) <= 2 ^ 32.
Proof.
  intros Hp. split; [apply Z.pow_pos_nonneg; lia |].
  apply Z.pow_le_mono_r; lia.
Qed.

Lemma mask_of_value (p : Z) :
  0 <= p <= 32 -> mask_of p = 2 ^ 32 - 2 ^ (32 - p).
Proof.
  intros Hp. pose proof (pow2_block p Hp) as Hk. unfold mask_of.
  destruct (Z.eqb_spec p 0) as [-> | Hne]; [reflexivity |].
  unfold U32.shl, U32.wrap, U32.modulus, U32.all_ones.
  rewrite Z.shiftl_mul_pow2 by lia.
  symmetry. apply Z.mod_unique with (q := 2 ^ (32 - p) - 1).
  - left. assert (2 ^ (32 - p) <= 2 ^ 31) by (apply Z.pow_le_mono_r; lia). lia.
  - change (2 ^ 32) with 4294967296. lia.
Qed.

Lemma not_mask_value (p : Z) :
  0 <= p <= 32 -> U32.not (mask_of p) = 2 ^ (32 - p) - 1.
Proof.
  intros Hp. pose proof (pow2_block p Hp) as Hk.
  rewrite mask_of_value by lia.
  unfold U32.not, U32.wrap, U32.modulus, Z.lnot.
  symmetry. apply Z.mod_unique with (q := -1); lia.
Qed.

Lemma testbit_above (x i : Z) :
  0 <= x < 2 ^ 32 -> 32 <= i -> Z.testbit x i = false.
Proof.
  intros Hx Hi. rewrite <- (Z.mod_small x (2 ^ 32)) by lia.
  apply Z.mod_pow2_bits_high. lia.
Qed.

(** Masking rounds an address down to a multiple of the block size. *)
Lemma land_mask_floor (x p : Z) :
  0 <= p <= 32 -> 0 <= x < 2 ^ 32 ->
  Z.land x (mask_of p) = 2 ^ (32 - p) * (x / 2 ^ (32 - p)).
Proof.
  intros Hp Hx. rewrite Z.mul_comm.
  rewrite <- Z.shiftr_div_pow2, <- Z.shiftl_mul_pow2 by lia.
  apply Z.bits_inj'. intros i Hi.
  rewrite Z.land_spec, mask_of_testbit by lia.
  destruct (Z.leb_spec (32 - p) i) as [Hle | Hgt]; cbn [andb].
  - rewrite Z.shiftl_spec, Z.shiftr_spec by lia.
    replace (i - (32 - p) + (32 - p)) with i by lia.
    destruct (Z.ltb_spec i 32); [apply andb_true_r |].
    rewrite testbit_above by lia. reflexivity.
  - rewrite andb_false_r. symmetry.
    rewrite Z.shiftl_spec by lia. apply Z.testbit_neg_r. lia.
Qed.

Lemma canonical_range (n : IPNetwork) :
  canonical n -> 0 <= network n < 2 ^ 32.
Proof.
  intros [Hp Hc]. pose proof (mask_of_range (prefix n) Hp) as Hm.
  unfold getMask in Hc. rewrite <- Hc.
  rewrite <- (Z.mod_small (mask_of (prefix n)) (2 ^ 32)) by lia.
  rewrite <- Z.land_ones, Z.land_assoc, Z.land_ones by lia.
  apply Z.mod_pos_bound. lia.
Qed.

(** A canonical address is a multiple of its block size. *)
Lemma canonical_aligned (n : IPNetwork) :
  canonical n ->
  network n = 2 ^ (32 - prefix n) * (network n / 2 ^ (32 - prefix n)).
Proof.
  intros Hn. pose proof (canonical_range n Hn) as Hr.
  destruct Hn as [Hp Hc]. unfold getMask in Hc.
  rewrite <- Hc at 1. now apply land_mask_floor.
Qed.

Lemma getBroadcast_value (n : IPNetwork) :
  canonical n -> getBroadcast n = network n + 2 ^ (32 - prefix n) - 1.
Proof.
  intros Hn. destruct Hn as [Hp Hc].
  assert (Hdisj : Z.land (network n) (U32.not (getMask n)) = 0).
  { rewrite <- Hc, <- Z.land_assoc, (Z.land_comm (getMask n)), not_land_self.
    apply Z.land_0_r. }
  unfold getBroadcast; cbv zeta.
  rewrite <- Z.lxor_lor, <- Z.add_nocarry_lxor by exact Hdisj.
  unfold getMask. rewrite not_mask_value by lia. lia.
Qed.

(** Length of the block of a canonical network inside the address space. *)
Lemma canonical_block_fits (n : IPNetwork) :
  canonical n -> network n + 2 ^ (32 - prefix n) <= 2 ^ 32.
Proof.
  intros Hn. pose proof (canonical_range n Hn) as Hr.
  pose proof (canonical_aligned n Hn) as Ha. destruct Hn as [Hp _].
  pose proof (pow2_block (prefix n) Hp) as Hk.
  assert (Hsplit : 2 ^ 32 = 2 ^ (32 - prefix n) * 2 ^ prefix n).
  { rewrite <- Z.pow_add_r by lia. f_equal. lia. }
  set (K := 2 ^ (32 - prefix n)) in *.
  set (t := network n / K) in *.
  assert (t < 2 ^ prefix n) by nia.
  nia.
Qed.

(** An address is in the block of a canonical network exactly when the mask
    maps it to the network address. *)
Lemma block_membership (n : IPNetwork) (x : Z) :
  canonical n -> 0 <= x < 2 ^ 32 ->
  Z.land x (getMask n) = network n <-> in_block n x.
Proof.
  intros Hn Hx. unfold in_block. rewrite getBroadcast_value by assumption.
  pose proof (canonical_aligned n Hn) as Ha. destruct Hn as [Hp _].
  pose proof (pow2_block (prefix n) Hp) as Hk.
  unfold getMask. rewrite land_mask_floor by assumption.
  set (K := 2 ^ (32 - prefix n)) in *.
  pose proof (Z.div_mod x K ltac:(lia)) as Hdm.
  pose proof (Z.mod_pos_bound x K ltac:(lia)) as Hmod.
  set (t := network n / K) in *. set (q := x / K) in *.
  split; intros H.
  - lia.
  - assert (q = t) as -> by (destruct (Z.lt_trichotomy q t) as [|[|]]; nia).
    lia.
Qed.

Lemma network_in_block (n : IPNetwork) : canonical n -> in_block n (network n).
Proof.
  intros Hn. unfold in_block. rewrite getBroadcast_value by assumption.
  destruct Hn as [Hp _]. pose proof (pow2_block (prefix n) Hp). lia.
Qed.

Lemma overlaps_le_in_block (a b : IPNetwork) :
  canonical a -> canonical b -> prefix a <= prefix b ->
  overlaps a b = true <-> in_block a (network b).
Proof.
  intros Ha Hb Hle. rewrite overlaps_canonical_le by assumption.
  rewrite Z.eqb_eq. apply block_membership; [assumption |].
  now apply canonical_range.
Qed.

(** Two canonical blocks that share an address: the one with the longer
    prefix starts inside the other. *)
Lemma blocks_meet_le (a b : IPNetwork) (x : Z) :
  canonical a -> canonical b -> prefix a <= prefix b ->
  in_block a x -> in_block b x -> in_block a (network b).
Proof.
  intros Ha Hb Hle. unfold in_block.
  rewrite !getBroadcast_value by assumption.
  pose proof (canonical_aligned a Ha) as Haa.
  pose proof (canonical_aligned b Hb) as Hab.
  destruct Ha as [Hpa _], Hb as [Hpb _].
  pose proof (pow2_block (prefix a) Hpa) as Hka.
  pose proof (pow2_block (prefix b) Hpb) as Hkb.
  assert (Hsplit : 2 ^ (32 - prefix a)
                   = 2 ^ (32 - prefix b) * 2 ^ (prefix b - prefix a)).
  { rewrite <- Z.pow_add_r by lia. f_equal. lia. }
  assert (Hm : 0 < 2 ^ (prefix b - prefix a)) by (apply Z.pow_pos_nonneg; lia).
  set (Ka := 2 ^ (32 - prefix a)) in *. set (Kb := 2 ^ (32 - prefix b)) in *.
  set (M := 2 ^ (prefix b - prefix a)) in *.
  set (ta := network a / Ka) in *. set (tb := network b / Kb) in *.
  intros [Hax Hxa] [Hbx Hxb]. split; [| lia].
  destruct (Z.le_gt_cases (M * ta) tb) as [Hge | Hlt]; [nia |].
  assert (tb + 1 <= M * ta) by lia. nia.
Qed.

End Ranges.

(** ** Further properties of the network predicates *)

Section NetworkProperties.

Local Open Scope Z_scope.

(** X1.  For a prefix in [0, 32], [getMask] is the 32-bit value whose top
    [prefix] bits are set: [2^32 - 2^(32 - prefix)]. *)
Theorem getMask_top_bits (n : IPNetwork) :
  0 <= prefix n <= 32 -> getMask n = 2 ^ 32 - 2 ^ (32 - prefix n).
Proof. intros Hp. unfold getMask. now apply mask_of_value. Qed.

Lemma getMask_top_bits_witness :
  getMask (cidr 10 0 0 0 8) = 2 ^ 32 - 2 ^ (32 - prefix (cidr 10 0 0 0 8)).
Proof. apply (getMask_top_bits (cidr 10 0 0 0 8)). cbn. lia. Defined.

(** X2.  On a canonical network [getBroadcast] is the last address of the
    block, [network + 2^(32 - prefix) - 1], and stays below [2^32]. *)
Theorem getBroadcast_last_address (n : IPNetwork) :
  canonical n ->
  getBroadcast n = network n + 2 ^ (32 - prefix n) - 1
  /\ network n <= getBroadcast n < 2 ^ 32.
Proof.
  intros Hn. pose proof (canonical_block_fits n Hn) as Hfit.
  rewrite getBroadcast_value by assumption.
  destruct Hn as [Hp _]. pose proof (pow2_block (prefix n) Hp). lia.
Qed.

Lemma getBroadcast_last_address_witness :
  getBroadcast (cidr 10 0 0 0 8)
  = network (cidr 10 0 0 0 8) + 2 ^ (32 - prefix (cidr 10 0 0 0 8)) - 1
  /\ network (cidr 10 0 0 0 8) <= getBroadcast (cidr 10 0 0 0 8) < 2 ^ 32.
Proof.
  apply (getBroadcast_last_address (cidr 10 0 0 0 8)).
  split; [cbn; lia | reflexivity].
Defined.

(** X3.  For a canonical network and a 32-bit address [x], the test
    [x & getMask() == network] holds exactly for the addresses from
    [network] to [getBroadcast()]. *)
Theorem masked_address_iff_in_block (n : IPNetwork) (x : Z) :
  canonical n -> 0 <= x < 2 ^ 32 ->
  Z.land x (getMask n) = network n <-> network n <= x <= getBroadcast n.
Proof. intros Hn Hx. now apply block_membership. Qed.

Lemma masked_address_iff_in_block_witness :
  Z.land (quad 10 1 2 3) (getMask (cidr 10 0 0 0 8)) = network (cidr 10 0 0 0 8)
  <-> network (cidr 10 0 0 0 8) <= quad 10 1 2 3
      <= getBroadcast (cidr 10 0 0 0 8).
Proof.
  apply (masked_address_iff_in_block (cidr 10 0 0 0 8) (quad 10 1 2 3)).
  - split; [cbn; lia | reflexivity].
  - cbn. lia.
Defined.

(** X4.  Two canonical networks overlap, in the sense of [overlaps], exactly
    when some address lies between the network and broadcast addresses of
    both. *)
Theorem overlaps_iff_blocks_meet (a b : IPNetwork) :
  canonical a -> canonical b ->
  overlaps a b = true <-> exists x, in_block a x /\ in_block b x.
Proof.
  intros Ha Hb.
  destruct (Z.le_ge_cases (prefix a) (prefix b)) as [Hle | Hge].
  - rewrite overlaps_le_in_block by assumption. split.
    + intros Hin. exists (network b). split; [exact Hin |].
      now apply network_in_block.
    + intros (x & Hax & Hbx). now apply (blocks_meet_le a b x).
  - rewrite overlaps_sym, overlaps_le_in_block by (assumption || lia). split.
    + intros Hin. exists (network a). split; [| exact Hin].
      now apply network_in_block.
    + intros (x & Hax & Hbx). apply (blocks_meet_le b a x); trivial; lia.
Qed.

Lemma overlaps_iff_blocks_meet_witness :
  overlaps (cidr 10 0 0 0 8) (cidr 10 1 0 0 16) = true
  <-> exists x, in_block (cidr 10 0 0 0 8) x /\ in_block (cidr 10 1 0 0 16) x.
Proof.
  apply (overlaps_iff_blocks_meet (cidr 10 0 0 0 8) (cidr 10 1 0 0 16)).
  - split; [cbn; lia | reflexivity].
  - split; [cbn; lia | reflexivity].
Defined.

(** X5.  [operator<] is a strict total order that agrees with [operator==]:
    of [a < b], [a == b] and [b < a] exactly one holds, and [<] is
    transitive. *)
Theorem operator_lt_strict_total (a b c : IPNetwork) :
  (net_ltb a b = true /\ net_eqb a b = false /\ net_ltb b a = false
   \/ net_ltb a b = false /\ net_eqb a b = true /\ net_ltb b a = false
   \/ net_ltb a b = false /\ net_eqb a b = false /\ net_ltb b a = true)
  /\ (net_ltb a b = true -> net_ltb b c = true -> net_ltb a c = true).
Proof.
  unfold net_ltb, net_eqb. split.
  - destruct (Z.eqb_spec (network a) (network b)),
      (Z.eqb_spec (network b) (network a)),
      (Z.eqb_spec (prefix a) (prefix b)),
      (Z.ltb_spec (network a) (network b)),
      (Z.ltb_spec (network b) (network a)),
      (Z.ltb_spec (prefix a) (prefix b)),
      (Z.ltb_spec (prefix b) (prefix a)); cbn [negb andb];
      try lia; intuition congruence.
  - destruct (Z.eqb_spec (network a) (network b)),
      (Z.eqb_spec (network b) (network c)),
      (Z.eqb_spec (network a) (network c)); cbn [negb];
      rewrite ?Z.ltb_lt; lia.
Qed.

Lemma operator_lt_strict_total_witness :
  net_ltb (cidr 10 0 0 0 8) (cidr 10 1 0 0 16) = true.
Proof.
  apply (proj2 (operator_lt_strict_total
                  (cidr 10 0 0 0 8) (cidr 10 0 0 0 16) (cidr 10 1 0 0 16)));
    reflexivity.
Defined.

End NetworkProperties.

(** ** Further properties of the exclusion kernel *)

Section KernelProperties.

Local Open Scope Z_scope.

Lemma not_mask_land_shorter (p q : Z) :
  0 <= p -> p <= q -> q <= 32 ->
  Z.land (U32.not (mask_of q)) (mask_of p) = 0.
Proof.
  intros Hp Hpq Hq. rewrite <- (mask_of_land p q) by lia.
  rewrite (Z.land_comm (mask_of p)), Z.land_assoc, not_land_self.
  apply Z.land_0_l.
Qed.

(** Against a canonical exclude the two candidates of a pass are pushed
    together or not at all. *)
Lemma split_pair_agree (c e : IPNetwork) (p : Z) :
  canonical e -> 0 <= p <= 32 ->
  overlaps (net2_at c p) e = overlaps (net1_at c p) e.
Proof.
  intros [Hpe Hce] Hp. unfold overlaps; cbv zeta.
  rewrite net1_at_masked, net2_at_masked.
  replace (getMask (net1_at c p)) with (mask_of p) by reflexivity.
  replace (getMask (net2_at c p)) with (mask_of p) by reflexivity.
  unfold net1_at, net2_at; cbn [network].
  set (s := Z.land (network c) (mask_of p)).
  assert (Hs : Z.land s (mask_of p) = s)
    by (unfold s; rewrite <- Z.land_assoc; now rewrite Z.land_diag).
  destruct (Z.le_gt_cases (prefix e) p) as [Hle | Hgt].
  - rewrite Z.land_lor_distr_l.
    unfold getMask. rewrite not_mask_land_shorter by lia.
    now rewrite Z.lor_0_r.
  - assert (Hwide : Z.land s (getMask e) = s).
    { unfold getMask. rewrite <- Hs, <- Z.land_assoc.
      now rewrite mask_of_land by lia. }
    destruct (Z.eqb_spec (Z.land (network e) (mask_of p)) s) as [H3 | H3];
      [now rewrite !orb_true_r |].
    rewrite !orb_false_r. f_equal.
    rewrite Hwide, Hce.
    destruct (Z.eqb_spec s (network e)) as [E | _];
      [exfalso; apply H3; rewrite <- E; exact Hs |].
    apply Z.eqb_neq. intros E. apply H3. rewrite <- E.
    rewrite <- Z.land_assoc, (Z.land_comm (getMask e)), Z.land_assoc.
    rewrite land_lor_not, Hs. exact Hwide.
Qed.

Lemma split_at_pair (c e : IPNetwork) (p : Z) (result : list IPNetwork) :
  canonical e -> 0 <= p <= 32 ->
  split_at c e p result =
    if overlaps (net1_at c p) e then result
    else result ++ [net1_at c p; net2_at c p].
Proof.
  intros He Hp. unfold split_at; cbv zeta.
  fold (net1_at c p). fold (net2_at c p).
  rewrite (split_pair_agree c e p He Hp).
  destruct (overlaps (net1_at c p) e); cbn [negb]; [reflexivity |].
  now rewrite <- app_assoc.
Qed.

Lemma split_loop_pair (c e : IPNetwork) (fuel : nat) (p : Z) :
  canonical e -> 0 <= p ->
  split_loop fuel c e p [] = [] \/
  exists q, p <= q <= 32 /\
    split_loop fuel c e p [] = [net1_at c q; net2_at c q] /\
    overlaps (net1_at c q) e = false /\ overlaps (net2_at c q) e = false.
Proof.
  intros He. revert p.
  induction fuel as [| fuel IH]; intros p Hp; [now left |].
  cbn [split_loop]. destruct (Z.leb_spec p 32) as [Hle | Hgt]; [| now left].
  rewrite split_at_pair by (assumption || lia).
  destruct (overlaps (net1_at c p) e) eqn:Hov.
  - cbn [List.length Nat.leb].
    destruct (IH (p + 1)) as [Hnil | (q & Hq & Hrest)]; [lia | now left |].
    right. exists q. split; [lia | exact Hrest].
  - right. exists p. split; [lia |]. split; [reflexivity |].
    split; [exact Hov |]. rewrite split_pair_agree by (assumption || lia).
    exact Hov.
Qed.

(** Whatever receiver with a non-negative prefix meets a canonical exclude,
    the kernel gives the receiver back or the two candidates of one pass,
    neither overlapping the exclude. *)
Lemma addressExclude_cases (c e : IPNetwork) :
  canonical e -> 0 <= prefix c ->
  addressExclude c e = [c] \/
  exists q, prefix c < q <= 32 /\
    addressExclude c e = [net1_at c q; net2_at c q] /\
    overlaps (net1_at c q) e = false /\ overlaps (net2_at c q) e = false.
Proof.
  intros He Hc. unfold addressExclude; cbv zeta.
  destruct (negb _ && negb _); [now left |].
  destruct (split_loop_pair c e (Z.to_nat (32 - prefix c)) (prefix c + 1) He)
    as [Hnil | (q & Hq & Hpair & Hov)]; [lia | |].
  - rewrite Hnil. now left.
  - rewrite Hpair. right. exists q. split; [lia |]. now split.
Qed.

(** The elements the loop can add, whatever the exclude. *)
Lemma split_loop_elements (c e : IPNetwork) (fuel : nat) (p : Z)
    (result : list IPNetwork) (x : IPNetwork) :
  In x (split_loop fuel c e p result) ->
  In x result \/
  exists q, p <= q <= 32 /\ (x = net1_at c q \/ x = net2_at c q).
Proof.
  revert p result. induction fuel as [| fuel IH]; intros p result Hin;
    [now left |].
  cbn [split_loop] in Hin.
  destruct (Z.leb_spec p 32) as [Hle | Hgt]; [| now left].
  assert (Hstep : forall y, In y (split_at c e p result) ->
            In y result \/ y = net1_at c p \/ y = net2_at c p).
  { intros y. unfold split_at; cbv zeta.
    fold (net1_at c p). fold (net2_at c p).
    destruct (negb (overlaps (net1_at c p) e)),
      (negb (overlaps (net2_at c p) e));
      rewrite ?in_app_iff; cbn [In]; intuition auto. }
  destruct (2 <=? List.length (split_at c e p result))%nat.
  - destruct (Hstep x Hin) as [H | H]; [now left |].
    right. exists p. split; [lia | exact H].
  - destruct (IH _ _ Hin) as [H | (q & Hq & H)].
    + destruct (Hstep x H) as [H' | H']; [now left |].
      right. exists p. split; [lia | exact H'].
    + right. exists q. split; [lia | exact H].
Qed.

Lemma addressExclude_elements (c e x : IPNetwork) :
  In x (addressExclude c e) ->
  x = c \/
  exists q, prefix c < q <= 32 /\ (x = net1_at c q \/ x = net2_at c q).
Proof.
  unfold addressExclude; cbv zeta.
  destruct (negb _ && negb _); [cbn [In]; intuition auto |].
  destruct (split_loop _ c e (prefix c + 1) []) as [| y l] eqn:Hloop;
    [cbn [In]; intuition auto |].
  intros Hin. rewrite <- Hloop in Hin.
  apply split_loop_elements in Hin as [[] | (q & Hq & H)].
  right. exists q. split; [lia | exact H].
Qed.

Lemma addressExclude_nonempty (c e : IPNetwork) : addressExclude c e <> [].
Proof.
  unfold addressExclude; cbv zeta.
  destruct (negb _ && negb _); [discriminate |].
  destruct (split_loop _ c e (prefix c + 1) []); discriminate.
Qed.

(** On a canonical pair the loop, given enough fuel, stops at the first pass
    whose mask separates the exclude from the address of the receiver. *)
Lemma split_loop_first (c e : IPNetwork) (fuel : nat) (p : Z) :
  canonical c -> canonical e -> prefix c <= prefix e ->
  prefix c < p -> (Z.to_nat (33 - p) <= fuel)%nat ->
  (split_loop fuel c e p [] = [] /\
   forall q, p <= q <= 32 -> Z.land (network e) (mask_of q) = network c)
  \/
  (exists q, p <= q <= 32 /\
     Z.land (network e) (mask_of q) <> network c /\
     (forall r, p <= r < q -> Z.land (network e) (mask_of r) = network c) /\
     split_loop fuel c e p [] = [net1_at c q; net2_at c q]).
Proof.
  intros Hc He Hle. revert p.
  induction fuel as [| fuel IH]; intros p Hp Hfuel.
  - left. split; [reflexivity |]. intros q Hq. lia.
  - cbn [split_loop]. destruct (Z.leb_spec p 32) as [Hp32 | Hp32].
    + rewrite (split_at_canonical c e Hc He Hle) by lia.
      destruct (Z.eqb_spec (Z.land (network e) (mask_of p)) (network c))
        as [Heq | Hne].
      * cbn [List.length Nat.leb].
        destruct (IH (p + 1)) as [[Hnil Hall] | (q & Hq & Hmiss & Hmin & Hres)];
          [lia | lia | |].
        -- left. split; [exact Hnil |]. intros q Hq.
           destruct (Z.eq_dec q p) as [-> | Hqp]; [exact Heq |].
           apply Hall. lia.
        -- right. exists q. split; [lia |]. split; [exact Hmiss |].
           split; [| exact Hres]. intros r Hr.
           destruct (Z.eq_dec r p) as [-> | Hrp]; [exact Heq |].
           apply Hmin. lia.
      * right. exists p. split; [lia |]. split; [exact Hne |].
        split; [intros r Hr; lia | reflexivity].
    + left. split; [reflexivity |]. intros q Hq. lia.
Qed.

Lemma net2_at_canonical (c : IPNetwork) (q : Z) :
  canonical c -> prefix c <= q <= 32 ->
  net2_at c q = mkIPNetwork (network c + 2 ^ (32 - q) - 1) q.
Proof.
  intros Hc Hq. unfold net2_at.
  rewrite canonical_longer_mask by assumption.
  assert (Hcq : canonical (mkIPNetwork (network c) q)).
  { split; cbn [prefix network]; [destruct Hc; lia |].
    unfold getMask; cbn [prefix]. now apply canonical_longer_mask. }
  pose proof (getBroadcast_value _ Hcq) as Hb.
  unfold getBroadcast, getMask in Hb; cbn [network prefix] in Hb.
  now rewrite Hb.
Qed.

(** Membership through [std::sort] and [std::unique]. *)
Lemma insert_sorted_In (x y : IPNetwork) (l : list IPNetwork) :
  In x (insert_sorted y l) <-> x = y \/ In x l.
Proof.
  induction l as [| z l IH]; cbn [insert_sorted In]; [intuition auto |].
  destruct (net_ltb z y); cbn [In]; rewrite ?IH; intuition auto.
Qed.

Lemma sort_In (x : IPNetwork) (l : list IPNetwork) : In x (sort l) <-> In x l.
Proof.
  induction l as [| y l IH]; cbn [sort fold_right In]; [reflexivity |].
  fold (sort l). rewrite insert_sorted_In, IH. intuition auto.
Qed.

Lemma unique_from_In (x last : IPNetwork) (l : list IPNetwork) :
  (In x (unique_from last l) -> In x l) /\
  (In x l -> x = last \/ In x (unique_from last l)).
Proof.
  revert last. induction l as [| y l IH]; intros last;
    cbn [unique_from In]; [intuition auto |].
  destruct (net_eqb last y) eqn:Heq.
  - apply net_eqb_eq in Heq. subst y. destruct (IH last) as [H1 H2].
    split; [auto |]. intros [-> | Hin]; auto.
  - destruct (IH y) as [H1 H2]. cbn [In].
    split; [intros [-> | Hin]; auto |].
    intros [-> | Hin]; [auto |]. destruct (H2 Hin) as [-> | H]; auto.
Qed.

Lemma unique_In (x : IPNetwork) (l : list IPNetwork) :
  In x (unique l) <-> In x l.
Proof.
  destruct l as [| y l]; cbn [unique In]; [reflexivity |].
  destruct (unique_from_In x y l) as [H1 H2].
  split; intros [-> | Hin]; auto.
  destruct (H2 Hin) as [-> | H]; auto.
Qed.

Lemma exclude_step_app (w1 w2 : list IPNetwork) (n : IPNetwork) :
  exclude_step (w1 ++ w2) n = exclude_step w1 n ++ exclude_step w2 n.
Proof. unfold exclude_step. apply flat_map_app. Qed.

Lemma exclude_step_cons (y : IPNetwork) (w : list IPNetwork) (n : IPNetwork) :
  exclude_step (y :: w) n
  = (if overlaps y n then addressExclude y n else [y]) ++ exclude_step w n.
Proof. reflexivity. Qed.

Lemma lor_range (a b : Z) :
  0 <= a < 2 ^ 32 -> 0 <= b < 2 ^ 32 -> 0 <= Z.lor a b < 2 ^ 32.
Proof.
  intros Ha Hb.
  rewrite <- (Z.mod_small a (2 ^ 32)), <- (Z.mod_small b (2 ^ 32)) by lia.
  rewrite <- !Z.land_ones, <- Z.land_lor_distr_l, Z.land_ones by lia.
  apply Z.mod_pos_bound. lia.
Qed.

Lemma land_mask_range (x p : Z) :
  0 <= p <= 32 -> 0 <= Z.land x (mask_of p) < 2 ^ 32.
Proof.
  intros Hp. pose proof (mask_of_range p Hp) as Hm.
  rewrite <- (Z.mod_small (mask_of p) (2 ^ 32)) by lia.
  rewrite <- Z.land_ones, Z.land_assoc, Z.land_ones by lia.
  apply Z.mod_pos_bound. lia.
Qed.

Lemma not_mask_range (p : Z) : 0 <= U32.not (mask_of p) < 2 ^ 32.
Proof. unfold U32.not, U32.wrap, U32.modulus. apply Z.mod_pos_bound. lia. Qed.

(** What the kernel returns stays in the block the receiver was in. *)
Lemma addressExclude_inside (s y e r : IPNetwork) :
  0 <= prefix s ->
  inside s y /\ 0 <= network y < 2 ^ 32 ->
  In r (addressExclude y e) ->
  inside s r /\ 0 <= network r < 2 ^ 32.
Proof.
  intros Hs [[Hpy Hy] Hry] Hin.
  apply addressExclude_elements in Hin as [-> | (q & Hq & [-> | ->])].
  - now split.
  - unfold inside, net1_at; cbn [prefix network]. split; [split; [lia |] |].
    + unfold getMask. rewrite <- Z.land_assoc, (Z.land_comm (mask_of q)).
      rewrite mask_of_land by lia. exact Hy.
    + apply land_mask_range. lia.
  - unfold inside, net2_at; cbn [prefix network]. split; [split; [lia |] |].
    + unfold getMask. rewrite Z.land_lor_distr_l.
      rewrite not_mask_land_shorter by lia. rewrite Z.lor_0_r.
      rewrite <- Z.land_assoc, (Z.land_comm (mask_of q)).
      rewrite mask_of_land by lia. exact Hy.
    + apply lor_range; [apply land_mask_range; lia | apply not_mask_range].
Qed.

Lemma exclude_step_Forall (P : IPNetwork -> Prop) (w : list IPNetwork)
    (e : IPNetwork) :
  (forall y r, P y -> In r (addressExclude y e) -> P r) ->
  Forall P w -> Forall P (exclude_step w e).
Proof.
  intros Hkernel Hw. induction Hw as [| y w Hy _ IH].
  - constructor.
  - rewrite exclude_step_cons. apply Forall_app. split; [| exact IH].
    destruct (overlaps y e); [| now constructor].
    apply Forall_forall. intros r Hin. now apply (Hkernel y).
Qed.

Lemma working_set_Forall (P : IPNetwork -> Prop) (es : list IPNetwork) :
  (forall e y r, P y -> In r (addressExclude y e) -> P r) ->
  forall w, Forall P w -> Forall P (fold_left exclude_step es w).
Proof.
  intros Hkernel. induction es as [| e es IH]; intros w Hw; cbn [fold_left];
    [exact Hw |].
  apply IH. apply exclude_step_Forall; [apply Hkernel | exact Hw].
Qed.

Lemma exclude_step_nonempty (w : list IPNetwork) (e : IPNetwork) :
  w <> [] -> exclude_step w e <> [].
Proof.
  destruct w as [| y w]; [congruence |]. intros _.
  rewrite exclude_step_cons.
  destruct (overlaps y e); [| discriminate].
  pose proof (addressExclude_nonempty y e).
  destruct (addressExclude y e); [congruence | discriminate].
Qed.

(** One application of a canonical exclude leaves nothing for a second. *)
Lemma exclude_step_fixed (y e : IPNetwork) :
  canonical e -> 0 <= prefix y ->
  exclude_step (if overlaps y e then addressExclude y e else [y]) e
  = (if overlaps y e then addressExclude y e else [y]).
Proof.
  intros He Hy. destruct (overlaps y e) eqn:Hov.
  - destruct (addressExclude_cases y e He Hy)
      as [Hself | (q & _ & Hpair & Hov1 & Hov2)].
    + rewrite Hself at 1. rewrite exclude_step_single, Hov. reflexivity.
    + rewrite Hpair. rewrite !exclude_step_cons, Hov1, Hov2. reflexivity.
  - now rewrite exclude_step_single, Hov.
Qed.

End KernelProperties.

(** ** Further properties of the kernel and the driver *)

Section DriverProperties.

Local Open Scope Z_scope.

(** X6.  The result of the kernel on a canonical pair with [c] containing
    [e].  If [e] starts at the address of [c], the result is [[c]].
    Otherwise let [q] be the first prefix length above that of [c] whose
    mask separates [e] from the address of [c]; [q] is at most the prefix of
    [e], and the result is the block [network c / q] twice: once under its
    network address and once under its broadcast address. *)
Theorem kernel_result (c e : IPNetwork) :
  canonical c -> canonical e -> contains c e = true ->
  (network e = network c /\ addressExclude c e = [c]) \/
  (exists q, prefix c < q <= prefix e /\
     Z.land (network e) (mask_of q) <> network c /\
     (forall r, prefix c < r < q ->
        Z.land (network e) (mask_of r) = network c) /\
     addressExclude c e
     = [mkIPNetwork (network c) q;
        mkIPNetwork (network c + 2 ^ (32 - q) - 1) q]).
Proof.
  intros Hc He Hcont. unfold contains in Hcont.
  apply andb_true_iff in Hcont as [Hle Hin].
  apply Z.leb_le in Hle. apply Z.eqb_eq in Hin.
  assert (Hpc : 0 <= prefix c <= 32) by (destruct Hc; assumption).
  assert (Hpe : 0 <= prefix e <= 32) by (destruct He; assumption).
  assert (Hee : Z.land (network e) (mask_of (prefix e)) = network e)
    by (destruct He; assumption).
  assert (Hguard : Z.land (network c) (getMask c)
                   = Z.land (network e) (getMask c))
    by (destruct Hc as [_ Hcc]; congruence).
  unfold addressExclude; cbv zeta.
  apply Z.eqb_eq in Hguard. rewrite Hguard; cbn [negb andb].
  destruct (split_loop_first c e (Z.to_nat (32 - prefix c)) (prefix c + 1)
              Hc He Hle) as [[Hnil Hall] | (q & Hq & Hmiss & Hmin & Hres)];
    [lia | lia | |].
  - left. rewrite Hnil. split; [| reflexivity].
    destruct (Z.eq_dec (prefix c) 32) as [E32 | N32].
    + assert (prefix e = prefix c) as Epc by lia.
      unfold getMask in Hin. rewrite <- Epc in Hin. congruence.
    + rewrite <- (Hall 32) by lia.
      symmetry. apply canonical_longer_mask; [assumption | lia].
  - right. exists q.
    assert (Hqe : q <= prefix e).
    { destruct (Z.le_gt_cases q (prefix e)) as [| Hgt]; [assumption |].
      exfalso. apply Hmiss.
      rewrite canonical_longer_mask by (assumption || lia).
      destruct (Z.eq_dec (prefix e) (prefix c)) as [Epc | Npc].
      - unfold getMask in Hin. rewrite <- Epc in Hin. congruence.
      - rewrite <- Hee. apply Hmin. lia. }
    split; [lia |]. split; [exact Hmiss |].
    split; [intros r Hr; apply Hmin; lia |].
    rewrite Hres, net1_at_canonical, net2_at_canonical by (assumption || lia).
    reflexivity.
Qed.

Lemma kernel_result_witness :
  (network (cidr 192 0 2 5 32) = network (cidr 192 0 2 0 24) /\
   addressExclude (cidr 192 0 2 0 24) (cidr 192 0 2 5 32)
   = [cidr 192 0 2 0 24]) \/
  (exists q, prefix (cidr 192 0 2 0 24) < q <= prefix (cidr 192 0 2 5 32) /\
     Z.land (network (cidr 192 0 2 5 32)) (mask_of q)
     <> network (cidr 192 0 2 0 24) /\
     (forall r, prefix (cidr 192 0 2 0 24) < r < q ->
        Z.land (network (cidr 192 0 2 5 32)) (mask_of r)
        = network (cidr 192 0 2 0 24)) /\
     addressExclude (cidr 192 0 2 0 24) (cidr 192 0 2 5 32)
     = [mkIPNetwork (network (cidr 192 0 2 0 24)) q;
        mkIPNetwork (network (cidr 192 0 2 0 24) + 2 ^ (32 - q) - 1) q]).
Proof.
  apply (kernel_result (cidr 192 0 2 0 24) (cidr 192 0 2 5 32)).
  - split; [cbn; lia | reflexivity].
  - split; [cbn; lia | reflexivity].
  - reflexivity.
Defined.

(** X7.  Applying the same canonical exclude a second time changes nothing:
    on a working set whose prefixes are not negative, [exclude_step] is
    idempotent. *)
Theorem exclude_step_idempotent (w : list IPNetwork) (e : IPNetwork) :
  canonical e -> Forall (fun y => 0 <= prefix y) w ->
  exclude_step (exclude_step w e) e = exclude_step w e.
Proof.
  intros He Hw. induction Hw as [| y w Hy _ IH]; [reflexivity |].
  rewrite exclude_step_cons, exclude_step_app, IH.
  now rewrite exclude_step_fixed.
Qed.

Lemma exclude_step_idempotent_witness :
  exclude_step
    (exclude_step [cidr 10 0 0 0 24; cidr 10 0 1 0 24] (cidr 10 0 0 128 25))
    (cidr 10 0 0 128 25)
  = exclude_step [cidr 10 0 0 0 24; cidr 10 0 1 0 24] (cidr 10 0 0 128 25).
Proof.
  apply (exclude_step_idempotent
           [cidr 10 0 0 0 24; cidr 10 0 1 0 24] (cidr 10 0 0 128 25)).
  - split; [cbn; lia | reflexivity].
  - repeat constructor; cbn; lia.
Defined.

(** X8.  The kernel never returns an empty vector, so the working set and
    the output of the pipeline are never empty, whatever the start and the
    excludes. *)
Theorem output_never_empty (start : IPNetwork) (excludes : list IPNetwork) :
  (forall c e, addressExclude c e <> []) /\
  working_set start excludes <> [] /\
  subtract start excludes <> [].
Proof.
  split; [apply addressExclude_nonempty |].
  assert (Hws : working_set start excludes <> []).
  { unfold working_set.
    assert (H : forall w, w <> [] -> fold_left exclude_step excludes w <> []).
    { induction excludes as [| e es IH]; intros w Hw; cbn [fold_left];
        [exact Hw |].
      apply IH. now apply exclude_step_nonempty. }
    apply H. discriminate. }
  split; [exact Hws |]. unfold subtract.
  destruct (working_set start excludes) as [| y l] eqn:E; [congruence |].
  intros Hnil.
  assert (Hin : In y (unique (sort (y :: l))))
    by (apply unique_In, sort_In; now left).
  rewrite Hnil in Hin. exact Hin.
Qed.

(** X9.  The output never leaves the start block.  For a canonical start,
    every network of the output, for any excludes, has a prefix between that
    of the start and 32 and an address between the network and broadcast
    addresses of the start. *)
Theorem output_inside_start (start : IPNetwork) (excludes : list IPNetwork)
    (r : IPNetwork) :
  canonical start -> In r (subtract start excludes) ->
  prefix start <= prefix r <= 32 /\
  network start <= network r <= getBroadcast start.
Proof.
  intros Hs Hin. unfold subtract in Hin.
  rewrite unique_In, sort_In in Hin.
  pose proof (canonical_range start Hs) as Hrange.
  assert (Hp : 0 <= prefix start <= 32) by (destruct Hs; assumption).
  assert (Hall : Forall (fun y => inside start y /\ 0 <= network y < 2 ^ 32)
                   (working_set start excludes)).
  { apply working_set_Forall.
    - intros e y x Hy Hx. apply (addressExclude_inside start y e x); trivial.
      lia.
    - constructor; [| constructor]. split; [| exact Hrange].
      split; [lia | destruct Hs; assumption]. }
  rewrite Forall_forall in Hall. destruct (Hall r Hin) as [[Hpr Hm] Hr].
  split; [exact Hpr |]. now apply block_membership.
Qed.

Lemma output_inside_start_witness :
  prefix (cidr 10 0 0 0 24) <= prefix (cidr 10 0 0 127 25) <= 32 /\
  network (cidr 10 0 0 0 24) <= network (cidr 10 0 0 127 25)
    <= getBroadcast (cidr 10 0 0 0 24).
Proof.
  apply (output_inside_start (cidr 10 0 0 0 24) [cidr 10 0 0 128 25]
           (cidr 10 0 0 127 25)).
  - split; [cbn; lia | reflexivity].
  - vm_compute. right. now left.
Defined.

(** X10.  Sorting and deduplicating neither loses nor invents a network: the
    output holds exactly the networks of the final working set. *)
Theorem output_same_networks (start : IPNetwork) (excludes : list IPNetwork)
    (r : IPNetwork) :
  In r (subtract start excludes) <-> In r (working_set start excludes).
Proof. unfold subtract. now rewrite unique_In, sort_In. Qed.

End DriverProperties.

(** ** Decimal text: printing and reading back *)

Section Numerals.

Local Open Scope Z_scope.
Local Open Scope string_scope.

Lemma digits_stop (acc : Z) (rest : string) :
  Scan.starts_with_digit rest = false -> Scan.digits acc rest = (acc, rest).
Proof.
  destruct rest as [| c r]; [reflexivity |]. cbn [Scan.starts_with_digit Scan.digits].
  destruct (Scan.digit_of c); [discriminate | reflexivity].
Qed.

Lemma digits_numeral (d : Decimal.uint) (acc : Z) (rest : string) :
  Scan.digits acc (NilEmpty.string_of_uint d ++ rest)
  = Scan.digits (uint_value acc d) rest.
Proof.
  revert acc. induction d; intros acc; cbn [NilEmpty.string_of_uint append uint_value];
    [reflexivity | ..]; cbn [Scan.digits]; apply IHd.
Qed.

Lemma uint_value_pos (d : Decimal.uint) (acc : positive) :
  uint_value (Z.pos acc) d = Z.pos (Pos.of_uint_acc d acc).
Proof.
  revert acc. induction d; intros acc; cbn [uint_value Pos.of_uint_acc];
    [reflexivity | ..];
    match goal with
    | |- uint_value ?v _ = Z.pos (Pos.of_uint_acc _ ?a) =>
        replace v with (Z.pos a) by lia
    end; apply IHd.
Qed.

Lemma uint_value_zero (d : Decimal.uint) :
  uint_value 0 d = Z.of_N (Pos.of_uint d).
Proof.
  induction d; cbn [uint_value Pos.of_uint]; [reflexivity | exact IHd | ..];
    match goal with
    | |- uint_value ?v _ = _ =>
        let p := eval cbv in v in change v with p
    end; apply uint_value_pos.
Qed.

Lemma uint_value_to_uint (p : positive) :
  uint_value 0 (Pos.to_uint p) = Z.pos p.
Proof. now rewrite uint_value_zero, DecimalPos.Unsigned.of_to. Qed.

Lemma integer_unsigned (s : string) :
  Scan.starts_with_digit s = true -> Scan.integer s = Some (Scan.digits 0 s).
Proof.
  destruct s as [| c r]; [discriminate |].
  destruct c as [[] [] [] [] [] [] [] []]; try discriminate; intros _;
    match goal with
    | |- Scan.integer ?s = _ =>
        change (Scan.integer s)
          with (let '(v, rest) := Scan.digits 0 s in Some (v, rest));
        destruct (Scan.digits 0 s); reflexivity
    end.
Qed.

Lemma integer_negative (s : string) :
  Scan.starts_with_digit s = true ->
  Scan.integer (String "-" s)
  = Some (- fst (Scan.digits 0 s), snd (Scan.digits 0 s)).
Proof.
  intros Hs. unfold Scan.integer.
  change (Scan.skip_space (String "-" s)) with (String "-" s).
  cbv beta iota. rewrite Hs. now destruct (Scan.digits 0 s).
Qed.

Lemma numeral_nonnil (d : Decimal.uint) (rest : string) :
  d <> Decimal.Nil ->
  NilZero.string_of_uint d = NilEmpty.string_of_uint d /\
  Scan.starts_with_digit (NilEmpty.string_of_uint d ++ rest) = true.
Proof. destruct d; [congruence | ..]; intros _; split; reflexivity. Qed.

(** Reading back what [operator<<] or [std::to_string] printed, up to the
    first character that is not a digit. *)
Lemma integer_decimal (z : Z) (rest : string) :
  Scan.starts_with_digit rest = false ->
  Scan.integer (Scan.decimal z ++ rest) = Some (z, rest).
Proof.
  intros Hrest. destruct z as [| p | p].
  - change (Scan.decimal 0 ++ rest)
      with (NilEmpty.string_of_uint (Decimal.D0 Decimal.Nil) ++ rest).
    rewrite integer_unsigned by reflexivity.
    now rewrite digits_numeral, digits_stop.
  - destruct (numeral_nonnil (Pos.to_uint p) rest
                (DecimalPos.Unsigned.to_uint_nonnil p)) as [Hnz Hhead].
    unfold Scan.decimal; cbn [Z.to_int NilZero.string_of_int].
    rewrite Hnz, integer_unsigned by exact Hhead.
    now rewrite digits_numeral, digits_stop, uint_value_to_uint.
  - destruct (numeral_nonnil (Pos.to_uint p) rest
                (DecimalPos.Unsigned.to_uint_nonnil p)) as [Hnz Hhead].
    unfold Scan.decimal; cbn [Z.to_int NilZero.string_of_int].
    rewrite Hnz. cbn [append].
    rewrite integer_negative by exact Hhead.
    now rewrite digits_numeral, digits_stop, uint_value_to_uint.
Qed.

Lemma to_int_small (v : Z) :
  Scan.int_min <= v <= Scan.int_max -> Scan.to_int v = v.
Proof.
  unfold Scan.int_min, Scan.int_max, Scan.to_int. intros Hv.
  rewrite Z.mod_small; lia.
Qed.

Lemma stoi_decimal (z : Z) (rest : string) :
  Scan.int_min <= z <= Scan.int_max ->
  Scan.starts_with_digit rest = false ->
  Scan.stoi (Scan.decimal z ++ rest) = Returned z.
Proof.
  intros Hz Hrest. unfold Scan.stoi. rewrite integer_decimal by exact Hrest.
  destruct (Z.leb_spec Scan.int_min z), (Z.leb_spec z Scan.int_max);
    cbn [andb]; (reflexivity || lia).
Qed.

(** A printed number that is not negative has digits only, and at least
    one. *)
Lemma digit_string_numeral (d : Decimal.uint) :
  digit_string (NilEmpty.string_of_uint d) = true.
Proof. induction d; cbn [NilEmpty.string_of_uint digit_string]; trivial. Qed.

Lemma digit_string_decimal (z : Z) :
  0 <= z -> digit_string (Scan.decimal z) = true.
Proof.
  intros Hz. destruct z as [| p | p]; [reflexivity | | lia].
  unfold Scan.decimal; cbn [Z.to_int NilZero.string_of_int].
  destruct (numeral_nonnil (Pos.to_uint p) ""
              (DecimalPos.Unsigned.to_uint_nonnil p)) as [-> _].
  apply digit_string_numeral.
Qed.

End Numerals.

(** ** Texts of addresses and networks *)

Section Texts.

Local Open Scope Z_scope.
Local Open Scope string_scope.

Lemma append_assoc (a b c : string) : (a ++ b) ++ c = a ++ (b ++ c).
Proof. induction a as [| x a IH]; cbn [append]; [reflexivity | now rewrite IH]. Qed.

Lemma append_nil_r (a : string) : a ++ "" = a.
Proof. induction a as [| x a IH]; cbn [append]; [reflexivity | now rewrite IH]. Qed.

Lemma find_digit_string (s : string) :
  digit_string s = true -> Scan.find "/" s = None.
Proof.
  induction s as [| c s IH]; cbn [digit_string Scan.find]; [reflexivity |].
  destruct (Ascii.eqb_spec c "/") as [-> | _]; [discriminate |].
  destruct (Scan.digit_of c); [| discriminate].
  intros H. now rewrite IH.
Qed.

Lemma find_append_none (c : ascii) (a b : string) :
  Scan.find c a = None -> Scan.find c b = None -> Scan.find c (a ++ b) = None.
Proof.
  intros Ha Hb. induction a as [| x a IH]; cbn [append]; [exact Hb |].
  cbn [Scan.find] in *. destruct (Ascii.eqb x c); [discriminate |].
  destruct (Scan.find c a); [discriminate |]. now rewrite IH.
Qed.

Lemma find_first (c : ascii) (a rest : string) :
  Scan.find c a = None ->
  Scan.find c (a ++ String c rest) = Some (String.length a).
Proof.
  induction a as [| x a IH]; cbn [append Scan.find String.length].
  - now rewrite Ascii.eqb_refl.
  - destruct (Ascii.eqb x c); [discriminate |].
    destruct (Scan.find c a); [discriminate |]. intros _. now rewrite IH.
Qed.

Lemma substring_all (s : string) : substring 0 (String.length s) s = s.
Proof.
  induction s as [| x s IH]; cbn [substring String.length];
    [reflexivity | now rewrite IH].
Qed.

Lemma substring_head (a b : string) :
  substring 0 (String.length a) (a ++ b) = a.
Proof.
  induction a as [| x a IH]; cbn [append substring String.length].
  - now destruct b.
  - now rewrite IH.
Qed.

Lemma substr_from_tail (a : string) (c : ascii) (rest : string) :
  Scan.substr_from (String.length a + 1) (a ++ String c rest) = rest.
Proof.
  unfold Scan.substr_from.
  induction a as [| x a IH]; cbn [append String.length Nat.add substring].
  - cbn [Nat.sub]. rewrite Nat.sub_0_r. apply substring_all.
  - exact IH.
Qed.

(** The four bytes of a 32-bit value, put back together. *)
Lemma octet_bit (x k i : Z) :
  0 <= k -> 0 <= i ->
  Z.testbit (Z.shiftl (Z.land (Z.shiftr x k) 255) k) i
  = (k <=? i)%Z && (i <? k + 8)%Z && Z.testbit x i.
Proof.
  intros Hk Hi. rewrite Z.shiftl_spec by lia.
  destruct (Z.leb_spec k i) as [Hle | Hgt]; cbn [andb].
  - rewrite Z.land_spec, Z.shiftr_spec by lia.
    replace (i - k + k) with i by lia.
    change 255 with (Z.ones 8).
    rewrite Z.testbit_ones_nonneg by lia.
    destruct (Z.ltb_spec (i - k) 8), (Z.ltb_spec i (k + 8));
      rewrite ?andb_true_r, ?andb_false_r; cbn [andb]; trivial; lia.
  - apply Z.testbit_neg_r. lia.
Qed.

Lemma octets_assemble (x : Z) :
  0 <= x < 2 ^ 32 ->
  U32.wrap
    (Z.lor (Z.lor (Z.lor (Z.shiftl (Z.land (Z.shiftr x 24) 255) 24)
                         (Z.shiftl (Z.land (Z.shiftr x 16) 255) 16))
                  (Z.shiftl (Z.land (Z.shiftr x 8) 255) 8))
           (Z.land x 255))
  = x.
Proof.
  intros Hx.
  assert (E : Z.lor (Z.lor (Z.lor (Z.shiftl (Z.land (Z.shiftr x 24) 255) 24)
                         (Z.shiftl (Z.land (Z.shiftr x 16) 255) 16))
                  (Z.shiftl (Z.land (Z.shiftr x 8) 255) 8))
           (Z.land x 255) = x).
  { apply Z.bits_inj'. intros i Hi.
    rewrite !Z.lor_spec, !octet_bit, Z.land_spec by lia.
    change 255 with (Z.ones 8). rewrite Z.testbit_ones_nonneg by lia.
    destruct (Z.ltb_spec i 32) as [Hlt | Hge].
    - destruct (Z.testbit x i); rewrite ?andb_true_r, ?andb_false_r;
        [| reflexivity].
      destruct (Z.leb_spec 24 i), (Z.ltb_spec i (24 + 8)),
        (Z.leb_spec 16 i), (Z.ltb_spec i (16 + 8)),
        (Z.leb_spec 8 i), (Z.ltb_spec i (8 + 8)), (Z.ltb_spec i 8);
        cbn [andb orb]; trivial; lia.
    - rewrite testbit_above by lia.
      now rewrite !andb_false_r. }
  rewrite E. unfold U32.wrap, U32.modulus. now apply Z.mod_small.
Qed.

Lemma octet_range (x k : Z) : 0 <= Z.land (Z.shiftr x k) 255 <= 255.
Proof.
  change 255 with (Z.ones 8) at 1 2. rewrite Z.land_ones by lia.
  pose proof (Z.mod_pos_bound (Z.shiftr x k) (2 ^ 8) ltac:(lia)). lia.
Qed.

Lemma low_octet_range (x : Z) : 0 <= Z.land x 255 <= 255.
Proof.
  change 255 with (Z.ones 8) at 1 2. rewrite Z.land_ones by lia.
  pose proof (Z.mod_pos_bound x (2 ^ 8) ltac:(lia)). lia.
Qed.

Lemma octet_is_int (v : Z) :
  0 <= v <= 255 -> Scan.int_min <= v <= Scan.int_max.
Proof. unfold Scan.int_min, Scan.int_max. lia. Qed.

(** What [sscanf] converts on four printed octets. *)
Lemma dotted_quad (a b c d : Z) (rest : string) :
  0 <= a <= 255 -> 0 <= b <= 255 -> 0 <= c <= 255 -> 0 <= d <= 255 ->
  Scan.starts_with_digit rest = false ->
  Scan.dotted 4
    (Scan.decimal a ++ String "." (Scan.decimal b ++ String "."
       (Scan.decimal c ++ String "." (Scan.decimal d ++ rest))))
  = [a; b; c; d].
Proof.
  intros Ha Hb Hc Hd Hrest. cbn [Scan.dotted].
  rewrite !integer_decimal by (reflexivity || exact Hrest).
  now rewrite !to_int_small by now apply octet_is_int.
Qed.

Lemma ipToString_append (x : Z) (rest : string) :
  ipToString x ++ rest
  = Scan.decimal (Z.land (Z.shiftr x 24) 255) ++ String "."
      (Scan.decimal (Z.land (Z.shiftr x 16) 255) ++ String "."
         (Scan.decimal (Z.land (Z.shiftr x 8) 255) ++ String "."
            (Scan.decimal (Z.land x 255) ++ rest))).
Proof. unfold ipToString. rewrite !append_assoc. reflexivity. Qed.

Lemma parseIP_printed (x : Z) (rest : string) :
  0 <= x < 2 ^ 32 -> Scan.starts_with_digit rest = false ->
  parseIP (ipToString x ++ rest) = x.
Proof.
  intros Hx Hrest. unfold parseIP; cbv zeta.
  rewrite ipToString_append.
  rewrite dotted_quad
    by (apply octet_range || apply low_octet_range || exact Hrest).
  cbn [nth]. now apply octets_assemble.
Qed.

Lemma ipToString_no_slash (x : Z) : Scan.find "/" (ipToString x) = None.
Proof.
  assert (Hd : forall v, 0 <= v <= 255 -> Scan.find "/" (Scan.decimal v) = None)
    by (intros v Hv; apply find_digit_string, digit_string_decimal; lia).
  unfold ipToString.
  repeat (apply find_append_none;
          [first [apply Hd; apply octet_range | reflexivity] |]).
  apply Hd, low_octet_range.
Qed.

(** The text [address/prefix], whatever follows the prefix. *)
Lemma fromCIDR_printed (x p : Z) (rest : string) :
  0 <= x < 2 ^ 32 -> Scan.int_min <= p <= Scan.int_max ->
  Scan.starts_with_digit rest = false ->
  fromCIDR (ipToString x ++ String "/" (Scan.decimal p ++ rest))
  = Returned (mkIPNetwork (Z.land x (mask_of p)) p).
Proof.
  intros Hx Hp Hrest. unfold fromCIDR.
  rewrite find_first by apply ipToString_no_slash.
  rewrite substr_from_tail, substring_head.
  rewrite stoi_decimal by assumption. cbn [bind].
  rewrite <- (append_nil_r (ipToString x)).
  now rewrite parseIP_printed.
Qed.

Lemma toString_append (n : IPNetwork) (rest : string) :
  toString n ++ rest
  = ipToString (network n) ++ String "/" (Scan.decimal (prefix n) ++ rest).
Proof. unfold toString. rewrite !append_assoc. reflexivity. Qed.

Lemma print_from_succ (i : nat) (l : list IPNetwork) :
  print_from (S i) l = print_from 1 l.
Proof.
  revert i. induction l as [| n l IH]; intros i; [reflexivity |].
  cbn [print_from]. change (0 <? S i)%nat with true.
  change (0 <? 1)%nat with true. cbv iota.
  now rewrite (IH (S i)), (IH 1%nat).
Qed.

Lemma print_from_concat (l : list IPNetwork) :
  print_from 0 l = String.concat "," (map toString l).
Proof.
  destruct l as [| n l]; [reflexivity |].
  cbn [print_from map]. change (0 <? 0)%nat with false. cbv iota.
  cbn [append]. revert n.
  induction l as [| m l IH]; intros n; cbn [print_from map String.concat].
  - apply append_nil_r.
  - change (0 <? 1)%nat with true. cbv iota. f_equal.
    rewrite print_from_succ. cbn [append]. f_equal. apply IH.
Qed.

End Texts.

(** ** Further properties of the canonicalization and of the text layer *)

Section TextProperties.

Local Open Scope Z_scope.

Lemma sort_sorted_id (l : list IPNetwork) :
  StronglySorted lex_lt l -> sort l = l.
Proof.
  induction 1 as [| x l Hsorted IH Hall]; [reflexivity |].
  cbn [sort fold_right]. fold (sort l). rewrite IH.
  destruct Hall as [| y l' Hxy _]; [reflexivity |].
  cbn [insert_sorted].
  assert (net_ltb y x = false) as ->; [| reflexivity].
  apply net_ltb_false_lex_le. now apply lex_lt_le.
Qed.

Lemma unique_from_sorted_id (x : IPNetwork) (l : list IPNetwork) :
  StronglySorted lex_lt l -> Forall (lex_lt x) l -> unique_from x l = l.
Proof.
  intros Hsorted. revert x.
  induction Hsorted as [| y l Hsorted IH Hall]; intros x Hx; [reflexivity |].
  cbn [unique_from]. inversion Hx as [| ? ? Hxy _]; subst.
  assert (net_eqb x y = false) as ->.
  { destruct (net_eqb x y) eqn:E; [| reflexivity].
    apply net_eqb_eq in E. subst y. now apply lex_lt_irrefl in Hxy. }
  now rewrite IH.
Qed.

Lemma unique_sorted_id (l : list IPNetwork) :
  StronglySorted lex_lt l -> unique l = l.
Proof.
  destruct 1 as [| x l Hsorted Hall]; [reflexivity |].
  cbn [unique]. now rewrite unique_from_sorted_id.
Qed.

Lemma land_range (x m : Z) : 0 <= x < 2 ^ 32 -> 0 <= Z.land x m < 2 ^ 32.
Proof.
  intros Hx. rewrite <- (Z.mod_small x (2 ^ 32)) by lia.
  rewrite <- Z.land_ones, <- Z.land_assoc, (Z.land_comm (Z.ones 32)) by lia.
  rewrite Z.land_assoc, Z.land_ones by lia.
  apply Z.mod_pos_bound. lia.
Qed.

Lemma exclude_all_thrown (exclude : list string) (e : exn) :
  forall result,
    exclude_all result exclude = Thrown e <->
    exists done bad rest,
      exclude = done ++ bad :: rest /\
      Forall (fun t => exists n, fromCIDR t = Returned n) done /\
      fromCIDR bad = Thrown e.
Proof.
  induction exclude as [| x exclude IH]; intros result; cbn [exclude_all].
  - split; [discriminate |].
    intros (done & bad & rest & Happ & _). now destruct done.
  - destruct (fromCIDR x) as [n | e'] eqn:Hx; cbn [bind].
    + rewrite IH. split.
      * intros (done & bad & rest & -> & Hdone & Hbad).
        exists (x :: done), bad, rest. split; [reflexivity |].
        split; [constructor; eauto | exact Hbad].
      * intros (done & bad & rest & Happ & Hdone & Hbad).
        destruct done as [| y done]; cbn [app] in Happ;
          injection Happ as <- ->; [congruence |].
        exists done, bad, rest. split; [reflexivity |].
        split; [now inversion Hdone | exact Hbad].
    + split.
      * intros [= <-]. exists [], x, exclude. now repeat split.
      * intros (done & bad & rest & Happ & Hdone & Hbad).
        destruct done as [| y done]; cbn [app] in Happ;
          injection Happ as <- ->; [congruence |].
        inversion Hdone as [| ? ? [n Hn] _]; subst. congruence.
Qed.

(** X11.  Against a canonical exclude, and for any receiver whose prefix is
    not negative, the kernel returns the receiver alone or exactly two
    networks, the two candidates of one pass of the loop, and then neither
    of them overlaps the exclude. *)
Theorem kernel_self_or_pair (c e : IPNetwork) :
  canonical e -> 0 <= prefix c ->
  addressExclude c e = [c] \/
  (List.length (addressExclude c e) = 2%nat /\
   Forall (fun r => overlaps r e = false /\ prefix c < prefix r <= 32)
     (addressExclude c e)).
Proof.
  intros He Hc.
  destruct (addressExclude_cases c e He Hc)
    as [Hself | (q & Hq & Hpair & Hov1 & Hov2)]; [now left |].
  right. rewrite Hpair. split; [reflexivity |].
  repeat constructor; cbn [prefix net1_at net2_at]; trivial; lia.
Qed.

Lemma kernel_self_or_pair_witness :
  addressExclude (cidr 10 0 0 127 25) (cidr 10 0 0 5 32)
  = [cidr 10 0 0 127 25] \/
  (List.length (addressExclude (cidr 10 0 0 127 25) (cidr 10 0 0 5 32))
   = 2%nat /\
   Forall (fun r => overlaps r (cidr 10 0 0 5 32) = false
                    /\ prefix (cidr 10 0 0 127 25) < prefix r <= 32)
     (addressExclude (cidr 10 0 0 127 25) (cidr 10 0 0 5 32))).
Proof.
  apply (kernel_self_or_pair (cidr 10 0 0 127 25) (cidr 10 0 0 5 32)).
  - split; [cbn; lia | reflexivity].
  - cbn. lia.
Defined.

(** X12.  The output is a fixed point of the canonicalization: sorting and
    deduplicating it again returns it unchanged. *)
Theorem canonical_output_fixed (start : IPNetwork) (excludes : list IPNetwork) :
  unique (sort (subtract start excludes)) = subtract start excludes.
Proof.
  assert (Hs : StronglySorted lex_lt (subtract start excludes))
    by apply unique_sorted, sort_sorted.
  now rewrite sort_sorted_id, unique_sorted_id.
Qed.

(** X13.  [parseIP] reads back what [ipToString] printed: for every 32-bit
    address, also when the text goes on with something that does not start
    with a digit. *)
Theorem parseIP_ipToString (x : Z) (rest : string) :
  0 <= x < 2 ^ 32 -> Scan.starts_with_digit rest = false ->
  parseIP (ipToString x ++ rest)%string = x.
Proof. intros Hx Hrest. now apply parseIP_printed. Qed.

Lemma parseIP_ipToString_witness :
  parseIP (ipToString (quad 192 0 2 5) ++ " and more")%string
  = quad 192 0 2 5.
Proof.
  apply (parseIP_ipToString (quad 192 0 2 5) " and more").
  - cbn. lia.
  - reflexivity.
Defined.

(** X14.  [fromCIDR] reads back what [toString] printed: for a canonical
    network the result is the network itself, also when the text goes on
    with something that does not start with a digit. *)
Theorem fromCIDR_toString (n : IPNetwork) (rest : string) :
  canonical n -> Scan.starts_with_digit rest = false ->
  fromCIDR (toString n ++ rest)%string = Returned n.
Proof.
  intros Hn Hrest. pose proof (canonical_range n Hn) as Hr.
  destruct Hn as [Hp Hc]. rewrite toString_append.
  rewrite fromCIDR_printed;
    [| assumption | unfold Scan.int_min, Scan.int_max; lia | assumption].
  unfold getMask in Hc. rewrite Hc. now destruct n.
Qed.

Lemma fromCIDR_toString_witness :
  fromCIDR (toString (cidr 10 0 0 0 8) ++ "/24")%string
  = Returned (cidr 10 0 0 0 8).
Proof.
  apply (fromCIDR_toString (cidr 10 0 0 0 8) "/24").
  - split; [cbn; lia | reflexivity].
  - reflexivity.
Defined.

(** X15.  [fromCIDR] clears host bits without complaint: the text of any
    32-bit address followed by a slash and a prefix in [0, 32] gives the
    canonical network whose address is the given one under the mask of the
    prefix. *)
Theorem fromCIDR_clears_host_bits (x p : Z) :
  0 <= x < 2 ^ 32 -> 0 <= p <= 32 ->
  fromCIDR (ipToString x ++ "/" ++ Scan.decimal p)%string
  = Returned (mkIPNetwork (Z.land x (mask_of p)) p)
  /\ canonical (mkIPNetwork (Z.land x (mask_of p)) p).
Proof.
  intros Hx Hp. split.
  - rewrite <- (append_nil_r (Scan.decimal p)).
    apply fromCIDR_printed;
      [assumption | unfold Scan.int_min, Scan.int_max; lia | reflexivity].
  - split; cbn [prefix network]; [exact Hp |].
    unfold getMask; cbn [prefix].
    rewrite <- Z.land_assoc. now rewrite Z.land_diag.
Qed.

Lemma fromCIDR_clears_host_bits_witness :
  fromCIDR (ipToString (quad 10 1 2 3) ++ "/" ++ Scan.decimal 8)%string
  = Returned (mkIPNetwork (Z.land (quad 10 1 2 3) (mask_of 8)) 8)
  /\ canonical (mkIPNetwork (Z.land (quad 10 1 2 3) (mask_of 8)) 8).
Proof.
  apply (fromCIDR_clears_host_bits (quad 10 1 2 3) 8); cbn; lia.
Defined.

(** X16.  Whatever text [fromCIDR] accepts, the network it returns has a
    32-bit address that its own mask leaves unchanged. *)
Theorem fromCIDR_result_masked (text : string) (n : IPNetwork) :
  fromCIDR text = Returned n ->
  Z.land (network n) (getMask n) = network n /\ 0 <= network n < 2 ^ 32.
Proof.
  intros Hn. split; [now apply (fromCIDR_host_bits text) |].
  unfold fromCIDR in Hn. destruct (Scan.find "/" text) as [pos |].
  - destruct (Scan.stoi _) as [p | e]; cbn [bind] in Hn; [| discriminate].
    injection Hn as <-. cbn [network]. apply land_range, parseIP_range.
  - injection Hn as <-. cbn [network]. apply parseIP_range.
Qed.

Lemma fromCIDR_result_masked_witness :
  Z.land (network (cidr 1 2 1 0 32)) (getMask (cidr 1 2 1 0 32))
  = network (cidr 1 2 1 0 32)
  /\ 0 <= network (cidr 1 2 1 0 32) < 2 ^ 32.
Proof.
  apply (fromCIDR_result_masked "1.2.0.256" (cidr 1 2 1 0 32)).
  reflexivity.
Defined.

(** X17.  A printed address without a slash is read as the single host
    [/32] of that address. *)
Theorem fromCIDR_bare_address (x : Z) :
  0 <= x < 2 ^ 32 ->
  fromCIDR (ipToString x) = Returned (mkIPNetwork x 32).
Proof.
  intros Hx. unfold fromCIDR. rewrite ipToString_no_slash.
  rewrite <- (append_nil_r (ipToString x)).
  now rewrite parseIP_printed.
Qed.

Lemma fromCIDR_bare_address_witness :
  fromCIDR (ipToString (quad 6 6 6 6)) = Returned (mkIPNetwork (quad 6 6 6 6) 32).
Proof. apply (fromCIDR_bare_address (quad 6 6 6 6)). cbn. lia. Defined.

(** X18.  When the start and every exclude parse, [main] prints the
    networks of the sorted, deduplicated working set as texts separated by
    single commas, followed by a newline. *)
Theorem run_output_format (start : string) (exclude : list string)
    (s : IPNetwork) (ns : list IPNetwork) :
  fromCIDR start = Returned s ->
  Forall2 (fun x n => fromCIDR x = Returned n) exclude ns ->
  run start exclude
  = Returned (String.concat "," (map toString (subtract s ns)) ++ endl)%string.
Proof.
  intros Hs Hns. rewrite (run_parsed start exclude s ns Hs Hns).
  now rewrite print_from_concat.
Qed.

Lemma run_output_format_witness :
  run "10.0.0.0/24" ["10.0.0.128/25"%string]
  = Returned
      (String.concat ","
         (map toString (subtract (cidr 10 0 0 0 24) [cidr 10 0 0 128 25]))
       ++ endl)%string.
Proof.
  apply (run_output_format "10.0.0.0/24" ["10.0.0.128/25"%string]
           (cidr 10 0 0 0 24) [cidr 10 0 0 128 25]).
  - reflexivity.
  - constructor; [reflexivity | constructor].
Defined.

(** X19.  [main] fails exactly when one of its texts fails to parse, with
    the exception of the first such text in the order start, then excludes;
    nothing is printed in that case. *)
Theorem run_throws_first (start : string) (exclude : list string) (e : exn) :
  run start exclude = Thrown e <->
  exists done bad rest,
    start :: exclude = done ++ bad :: rest /\
    Forall (fun t => exists n, fromCIDR t = Returned n) done /\
    fromCIDR bad = Thrown e.
Proof.
  unfold run. destruct (fromCIDR start) as [s | e'] eqn:Hs; cbn [bind].
  - assert (Hrun : (result <- exclude_all [s] exclude ;;
                    Returned (print_from 0 (unique (sort result)) ++ endl)%string)
                   = Thrown e <-> exclude_all [s] exclude = Thrown e).
    { destruct (exclude_all [s] exclude); cbn [bind];
        split; congruence. }
    rewrite Hrun, exclude_all_thrown. split.
    + intros (done & bad & rest & -> & Hdone & Hbad).
      exists (start :: done), bad, rest. split; [reflexivity |].
      split; [constructor; eauto | exact Hbad].
    + intros (done & bad & rest & Happ & Hdone & Hbad).
      destruct done as [| y done]; cbn [app] in Happ;
        injection Happ as <- ->; [congruence |].
      exists done, bad, rest. split; [reflexivity |].
      split; [now inversion Hdone | exact Hbad].
  - split.
    + intros [= <-]. exists [], start, exclude. now repeat split.
    + intros (done & bad & rest & Happ & Hdone & Hbad).
      destruct done as [| y done]; cbn [app] in Happ;
        injection Happ as <- ->; [congruence |].
      inversion Hdone as [| ? ? [n Hn] _]; subst. congruence.
Qed.

Lemma run_throws_first_witness :
  run "10.0.0.0/8" ["192.168.0.0/16"; "10.0.0.0/x"; "8.8.8.8"]%string
  = Thrown invalid_argument.
Proof.
  apply (proj2 (run_throws_first "10.0.0.0/8"
                  ["192.168.0.0/16"; "10.0.0.0/x"; "8.8.8.8"]%string
                  invalid_argument)).
  exists ["10.0.0.0/8"; "192.168.0.0/16"]%string, "10.0.0.0/x"%string,
    ["8.8.8.8"%string].
  split; [reflexivity |]. split; [| reflexivity].
  constructor; [eexists; reflexivity |].
  constructor; [eexists; reflexivity | constructor].
Defined.

End TextProperties.

(** ** Addresses that are not dotted quads *)

Section MalformedAddresses.

Local Open Scope Z_scope.
Local Open Scope string_scope.











End MalformedAddresses.
